(** * Verification of irminsul's acquisition layer

    Shallow embedding of [src/src/capture.rs], [src/src/capture/pktmon_backend.rs],
    [src/src/capture/pcap_backend.rs] and [src/src/wish.rs].

    Conventions of the embedding:
    - Rust strings are [string] (ASCII characters stand for the characters
      the regexes look at);
    - a [PathBuf] is the list of its components, [push] appends components;
    - a [SystemTime] is a [Z] count of nanoseconds relative to [UNIX_EPOCH]
      (negative for times before the epoch, which Windows can report);
    - the outside world (environment variables, files, directories, the
      watcher, the network, pcap/pktmon) is an explicit environment record
      consulted by the code, one value per point in time. *)

From Stdlib Require Import List String Ascii ZArith Bool Lia.
Import ListNotations.
Open Scope string_scope.
Open Scope list_scope.

(** ** Common types *)

(** [Result<T, E>] *)
Inductive result (A E : Type) : Type :=
| Ok (a : A)
| Err (e : E).
Arguments Ok {A E} a.
Arguments Err {A E} e.

Definition path := list string.

(** [PathBuf::push] of a relative path given by its components. *)
Definition push (p : path) (rel : list string) : path := app p rel.

Definition path_eqb (p q : path) : bool :=
  if list_eq_dec string_dec p q then true else false.

Definition newline : ascii := Ascii.ascii_of_nat 10.

(** [String::drop]-like helper: the suffix after the first [n] characters. *)
Fixpoint sdrop (n : nat) (s : string) : string :=
  match n, s with
  | O, _ => s
  | S n', String _ s' => sdrop n' s'
  | S _, EmptyString => EmptyString
  end.

(** ** The regex [(?m).:[/\\].+(GenshinImpact_Data|YuanShen_Data)]
    (wish.rs, [Wish::get_data_dir]).

    [.] matches any character but a newline; [.+] is greedy, so after the
    prefix [c:/] the match extends to the LAST position where one of the two
    alternatives ends.  [gd_scan r k acc] walks the characters consumed by
    [.+] (at least one, none a newline) and returns the length of the
    longest accepted continuation. *)
Fixpoint gd_scan (r : string) (k : nat) (acc : option nat) : option nat :=
  match r with
  | EmptyString => acc
  | String c r' =>
      if Ascii.eqb c newline then acc
      else
        let k' := S k in
        let acc' :=
          if String.prefix "GenshinImpact_Data" r' then Some (k' + 18)
          else if String.prefix "YuanShen_Data" r' then Some (k' + 13)
          else acc in
        gd_scan r' k' acc'
  end.

Definition is_sep (c : ascii) : bool :=
  Ascii.eqb c "/"%char || Ascii.eqb c "\"%char.

(** A match starting at the head of [s], if any. *)
Definition gd_at (s : string) : option string :=
  match s with
  | String c (String col (String sep r)) =>
      if negb (Ascii.eqb c newline) && Ascii.eqb col ":"%char && is_sep sep then
        match gd_scan r 0 None with
        | Some l => Some (String.substring 0 (3 + l) s)
        | None => None
        end
      else None
  | _ => None
  end.

(** [game_data_re.captures_iter(&line).next()]: the leftmost match. *)
Fixpoint game_data_find (s : string) : option string :=
  match s with
  | EmptyString => None
  | String _ r =>
      match gd_at s with
      | Some m => Some m
      | None => game_data_find r
      end
  end.

(** ** The regex [(https.+?webview_gacha.+?game_biz=)]
    (wish.rs, [Wish::handle_web_cache_dir_update]).

    [lazy_plus r k] matches a lazy [.+?] followed by the continuation [k]:
    it consumes one character (not a newline), tries [k], and only if [k]
    fails consumes one more.  Results are match lengths. *)
Fixpoint lazy_plus (r : string) (k : string -> option nat) : option nat :=
  match r with
  | EmptyString => None
  | String c r' =>
      if Ascii.eqb c newline then None
      else
        match k r' with
        | Some n => Some (S n)
        | None => option_map S (lazy_plus r' k)
        end
  end.

Definition lit (w : string) (k : string -> option nat) (r : string) : option nat :=
  if String.prefix w r then option_map (Nat.add (String.length w)) (k (sdrop (String.length w) r))
  else None.

Definition url_at (s : string) : option nat :=
  lit "https"
    (fun r => lazy_plus r
       (lit "webview_gacha"
          (fun r2 => lazy_plus r2 (lit "game_biz=" (fun _ => Some 0))))) s.

(** [url_re.captures_iter(&strings)]: successive non-overlapping leftmost
    matches; after a match of length [n] the search resumes [n] characters
    later ([skip] counts the characters still inside the last match). *)
Fixpoint url_find_all_go (s : string) (skip : nat) : list string :=
  match s with
  | EmptyString => []
  | String _ r =>
      match skip with
      | S k => url_find_all_go r k
      | O =>
          match url_at s with
          | Some n => String.substring 0 n s :: url_find_all_go r (n - 1)
          | None => url_find_all_go r 0
          end
      end
  end.

Definition url_find_all (s : string) : list string := url_find_all_go s 0.

(** [Iterator::last] *)
Fixpoint last_opt {A} (l : list A) : option A :=
  match l with
  | [] => None
  | [a] => Some a
  | _ :: l' => last_opt l'
  end.

(** *** Shapes of the two regexes' matches *)

Fixpoint no_newline (s : string) : bool :=
  match s with
  | EmptyString => true
  | String c s' => negb (Ascii.eqb c newline) && no_newline s'
  end.

(** A match of [(?m).:[/\\].+(GenshinImpact_Data|YuanShen_Data)]. *)
Definition gd_shape (m : string) : Prop :=
  exists c sep x tail,
    Ascii.eqb c newline = false /\ is_sep sep = true
    /\ x <> EmptyString /\ no_newline x = true
    /\ (tail = "GenshinImpact_Data" \/ tail = "YuanShen_Data")
    /\ m = String c (String ":" (String sep (x ++ tail)%string)).

(** A match of [(https.+?webview_gacha.+?game_biz=)]. *)
Definition url_shape (u : string) : Prop :=
  exists a b,
    a <> EmptyString /\ no_newline a = true /\ b <> EmptyString /\ no_newline b = true
    /\ u = ("https" ++ a ++ "webview_gacha" ++ b ++ "game_biz=")%string.

(** [k] only accepts prefixes of its input of the language [L]. *)
Definition sound (k : string -> option nat) (L : string -> Prop) : Prop :=
  forall r n, k r = Some n -> L (String.substring 0 n r).

(** ** The Wish URL monitor (wish.rs) *)
Module Wish.

(** [anyhow::Error]s raised by the monitor, one constructor per [?] or
    [anyhow!] site. *)
Inductive werr : Type :=
| NoUserProfile
| DebouncerError
| WatchError (p : path)
| CouldNotOpen (p : path)
| LineReadError
| NoGameDataPath (p : path)
| CouldNotOpenDirectory (p : path)
| DirEntryError
| MetadataError
| ModifiedError
| NoDirectory (p : path)
| CouldNotOpenFile (p : path)
| NoUrl (p : path)
| ValidationRequestError
| ErrorCode (retcode : Z).

(** One item of [BufReader::lines]: a line, or an I/O / UTF-8 error. *)
Inductive io_line : Type :=
| Line (s : string)
| LineError.

Record Metadata := {
  md_is_dir : bool;
  md_modified : option Z   (** [None]: [metadata.modified()] fails *)
}.

Record DirEntry := {
  entry_name : string;
  entry_metadata : option Metadata   (** [None]: [entry.metadata()] fails *)
}.

(** One item of [ReadDir::next_entry]. *)
Inductive dir_item : Type :=
| Entry (e : DirEntry)
| EntryError.

(** The outside world as seen by the monitor at one point in time. *)
Record wish_env := {
  env_userprofile : option string;
  env_debouncer_ok : bool;
  env_watch : path -> bool;                    (** [watcher().watch(p, ..)] succeeds *)
  env_read_lines : path -> option (list io_line);
  env_read_dir : path -> option (list dir_item);
  env_read_file : path -> option string;       (** [fs::read] then [String::from_utf8_lossy] *)
  env_http : string -> option Z                (** validation GET: [None] for a URL-parse,
                                                   network, status or JSON error, else the
                                                   [retcode] of the body *)
}.

(** Observable effects, in program order. *)
Inductive action : Type :=
| Watch (p : path)
| Unwatch (p : path)
| ReadCache (p : path)
| Validate (url : string)
| Publish (url : string)           (** [self.url_tx.send(Some(url))] *)
| Log (e : werr).                  (** [tracing::info!] of a swallowed error *)

(** [struct Wish] (the sender, debouncer and receiver are the environment). *)
Record Wish := {
  self_output_log_path : path;
  web_cache_path : option path;
  prev_url : string
}.

Definition set_web_cache_path (s : Wish) (w : option path) : Wish :=
  {| self_output_log_path := self_output_log_path s; web_cache_path := w;
     prev_url := prev_url s |}.

Definition set_prev_url (s : Wish) (u : string) : Wish :=
  {| self_output_log_path := self_output_log_path s; web_cache_path := web_cache_path s;
     prev_url := u |}.

(** *** A reader / state / error / trace monad for [&mut self] async methods *)
Definition M (A : Type) : Type := wish_env -> Wish -> result A werr * Wish * list action.

Definition ret {A} (a : A) : M A := fun _ s => (Ok a, s, []).

Definition bind {A B} (m : M A) (k : A -> M B) : M B :=
  fun env s =>
    match m env s with
    | (Ok a, s1, t1) => let '(r, s2, t2) := k a env s1 in (r, s2, t1 ++ t2)
    | (Err e, s1, t1) => (Err e, s1, t1)
    end.

Notation "x <- m ;; k" := (bind m (fun x => k))
  (at level 61, m at next level, right associativity).

Definition ask : M wish_env := fun env s => (Ok env, s, []).
Definition get : M Wish := fun _ s => (Ok s, s, []).
Definition put (s' : Wish) : M unit := fun _ _ => (Ok tt, s', []).
Definition emit (a : action) : M unit := fun _ s => (Ok tt, s, [a]).
Definition throw {A} (e : werr) : M A := fun _ s => (Err e, s, []).
Definition lift {A} (r : result A werr) : M A :=
  match r with Ok a => ret a | Err e => throw e end.

(** [if let Err(e) = m.await { tracing::info!(..) }] *)
Definition try_log (m : M unit) : M unit :=
  fun env s =>
    match m env s with
    | (Ok _, s1, t1) => (Ok tt, s1, t1)
    | (Err e, s1, t1) => (Ok tt, s1, t1 ++ [Log e])
    end.

(** *** Pure parts *)

(** [fn output_log_path] *)
Definition output_log_path (env : wish_env) : result path werr :=
  match env_userprofile env with
  | None => Err NoUserProfile
  | Some up => Ok (push [up] ["AppData"; "LocalLow"; "miHoYo"; "Genshin Impact"; "output_log.txt"])
  end.

(** The [while let Some(line) = lines.next_line().await?] loop of
    [get_data_dir]: returns at the first line with a match. *)
Fixpoint scan_log_lines (log_path : path) (ls : list io_line) : result path werr :=
  match ls with
  | [] => Err (NoGameDataPath log_path)
  | LineError :: _ => Err LineReadError
  | Line l :: rest =>
      match game_data_find l with
      | Some m => Ok [m]
      | None => scan_log_lines log_path rest
      end
  end.

(** [Wish::get_data_dir] *)
Definition get_data_dir_pure (env : wish_env) (output_log_path : path) : result path werr :=
  match env_read_lines env output_log_path with
  | None => Err (CouldNotOpen output_log_path)
  | Some ls => scan_log_lines output_log_path ls
  end.

(** The [while let Some(entry) = dir.next_entry().await?] loop of
    [get_web_cache_dir]; [latest] is [latest_dir]. *)
Fixpoint scan_entries (web_caches : path) (latest : Z * option path) (items : list dir_item)
  : result (Z * option path) werr :=
  match items with
  | [] => Ok latest
  | EntryError :: _ => Err DirEntryError
  | Entry e :: rest =>
      match entry_metadata e with
      | None => Err MetadataError
      | Some md =>
          if negb (md_is_dir md) then scan_entries web_caches latest rest
          else
            match md_modified md with
            | None => Err ModifiedError
            | Some modified =>
                if Z.ltb (fst latest) modified
                then scan_entries web_caches (modified, Some (push web_caches [entry_name e])) rest
                else scan_entries web_caches latest rest
            end
      end
  end.

Definition UNIX_EPOCH : Z := 0.

(** [fn get_web_cache_dir] *)
Definition get_web_cache_dir (env : wish_env) (data_dir : path) : result path werr :=
  let web_caches := push data_dir ["webCaches"] in
  match env_read_dir env web_caches with
  | None => Err (CouldNotOpenDirectory web_caches)
  | Some items =>
      match scan_entries web_caches (UNIX_EPOCH, None) items with
      | Err e => Err e
      | Ok (_, None) => Err (NoDirectory web_caches)
      | Ok (_, Some p) => Ok p
      end
  end.

(** *** Methods *)

Definition get_data_dir : M path :=
  s <- get ;; env <- ask ;; lift (get_data_dir_pure env (self_output_log_path s)).

Definition get_web_cache_path : M path :=
  data_dir <- get_data_dir ;;
  env <- ask ;;
  web_cache_path <- lift (get_web_cache_dir env data_dir) ;;
  ret (push web_cache_path ["Cache"; "Cache_Data"; "data_2"]).

(** [fn validate_url] *)
Definition validate_url (url : string) : M unit :=
  _ <- emit (Validate url) ;;
  env <- ask ;;
  match env_http env url with
  | None => throw ValidationRequestError
  | Some retcode => if Z.eqb retcode 0 then ret tt else throw (ErrorCode retcode)
  end.

(** [Wish::handle_web_cache_dir_update] *)
Definition handle_web_cache_dir_update : M unit :=
  s <- get ;;
  match web_cache_path s with
  | None => ret tt
  | Some data_path =>
      _ <- emit (ReadCache data_path) ;;
      env <- ask ;;
      match env_read_file env data_path with
      | None => throw (CouldNotOpenFile data_path)
      | Some strings =>
          match last_opt (url_find_all strings) with
          | None => throw (NoUrl data_path)
          | Some url =>
              if String.eqb url (prev_url s) then ret tt
              else
                _ <- validate_url url ;;
                s' <- get ;;
                _ <- put (set_prev_url s' url) ;;
                emit (Publish url)
          end
      end
  end.

(** [Wish::handle_log_update]; the results of [unwatch] and of the new
    [watch] are discarded ([let _ = ..]). *)
Definition handle_log_update : M unit :=
  web_cache_path' <- get_web_cache_path ;;
  s <- get ;;
  _ <- match web_cache_path s with
       | Some old_cache_path =>
           _ <- put (set_web_cache_path s None) ;;
           emit (Unwatch old_cache_path)
       | None => ret tt
       end ;;
  s1 <- get ;;
  _ <- put (set_web_cache_path s1 (Some web_cache_path')) ;;
  _ <- emit (Watch web_cache_path') ;;
  try_log handle_web_cache_dir_update.

(** [Wish::new] *)
Definition new (env : wish_env) : result Wish werr :=
  match output_log_path env with
  | Err e => Err e
  | Ok p =>
      if env_debouncer_ok env
      then Ok {| self_output_log_path := p; web_cache_path := None; prev_url := "" |}
      else Err DebouncerError
  end.

(** *** The event loop of [Wish::monitor] *)

Record DebouncedEvent := { event_path : path }.

(** One item of [file_events]: [Ok(events)] or [Err(errors)], together with
    the state of the world while it is handled.  The end of the list is
    [recv()] returning [None] (channel closed). *)
Inductive batch : Type :=
| BatchOk (events : list DebouncedEvent)
| BatchErr (errors : list string).

Definition handle_event (output_log_path : path) (event : DebouncedEvent) : M unit :=
  if path_eqb (event_path event) output_log_path then try_log handle_log_update
  else
    s <- get ;;
    match web_cache_path s with
    | Some web_cache_dir =>
        if path_eqb (event_path event) web_cache_dir
        then try_log handle_web_cache_dir_update
        else ret tt
    | None => ret tt
    end.

(** [for event in events { .. }] *)
Fixpoint handle_events (output_log_path : path) (events : list DebouncedEvent) : M unit :=
  match events with
  | [] => ret tt
  | ev :: rest => _ <- handle_event output_log_path ev ;; handle_events output_log_path rest
  end.

Definition run_unit (m : M unit) (env : wish_env) (s : Wish) : Wish * list action :=
  let '(_, s', t) := m env s in (s', t).

(** [while let Some(Ok(events)) = self.file_events.recv().await { .. }] *)
Fixpoint event_loop (output_log_path : path) (chan : list (wish_env * batch)) (s : Wish)
  : Wish * list action :=
  match chan with
  | [] => (s, [])
  | (_, BatchErr _) :: _ => (s, [])
  | (env, BatchOk events) :: rest =>
      let '(s1, t1) := run_unit (handle_events output_log_path events) env s in
      let '(s2, t2) := event_loop output_log_path rest s1 in
      (s2, t1 ++ t2)
  end.

(** [Wish::monitor]: [env0] is the world at the call, [chan] what the
    debouncer delivers afterwards. *)
Definition monitor (env0 : wish_env) (chan : list (wish_env * batch)) (s : Wish)
  : result unit werr * Wish * list action :=
  match output_log_path env0 with
  | Err e => (Err e, s, [])
  | Ok olp =>
      if negb (env_watch env0 olp) then (Err (WatchError olp), s, [])
      else
        let '(s1, t1) := run_unit (try_log handle_log_update) env0 s in
        let '(s2, t2) := event_loop olp chan s1 in
        (Ok tt, s2, Watch olp :: t1 ++ t2)
  end.

(** *** Observations used by the statements *)

(** The URLs sent on [url_tx], in order. *)
Fixpoint published (t : list action) : list string :=
  match t with
  | [] => []
  | Publish u :: t' => u :: published t'
  | _ :: t' => published t'
  end.

(** No two consecutive elements of [a :: l] are equal. *)
Fixpoint chain_from (a : string) (l : list string) : Prop :=
  match l with
  | [] => True
  | b :: l' => a <> b /\ chain_from b l'
  end.

(** [e] is a directory entry whose metadata reports modification time [m]. *)
Definition dir_mtime (e : DirEntry) (m : Z) : Prop :=
  exists md, entry_metadata e = Some md /\ md_is_dir md = true /\ md_modified md = Some m.

(** Every entry's metadata, and a directory's modification time, can be read. *)
Definition entries_readable (es : list DirEntry) : Prop :=
  forall e, In e es ->
    exists md, entry_metadata e = Some md /\ (md_is_dir md = true -> exists m, md_modified md = Some m).

(** [t] took the monitor from [s] to [s'] without publishing the same URL
    twice in a row (nor [prev_url s] first), leaving [prev_url] at the last
    URL published. *)
Definition pub_ok (s : Wish) (t : list action) (s' : Wish) : Prop :=
  chain_from (prev_url s) (published t) /\ prev_url s' = last (published t) (prev_url s).

Definition keeps_pub {A} (m : M A) : Prop :=
  forall env s, let '(_, s', t) := m env s in pub_ok s t s'.

(** Net number of [watch] calls on [p] in a trace: each [Watch p] counts
    one, each [Unwatch p] minus one. *)
Definition watch_delta (p : path) (a : action) : Z :=
  match a with
  | Watch q => if path_eqb q p then 1 else 0
  | Unwatch q => if path_eqb q p then -1 else 0
  | _ => 0
  end%Z.

Definition net_watches (t : list action) (p : path) : Z :=
  fold_right (fun a acc => (watch_delta p a + acc)%Z) 0%Z t.

(** Whether the state records [p] as the watched cache file. *)
Definition cache_watched (s : Wish) (p : path) : Z :=
  match web_cache_path s with
  | Some w => if path_eqb w p then 1 else 0
  | None => 0
  end%Z.

(** Every [Publish u] of the trace comes right after a [Validate u]. *)
Fixpoint pubs_validated (t : list action) : bool :=
  match t with
  | [] => true
  | Publish _ :: _ => false
  | Validate u :: Publish u' :: t' => String.eqb u u' && pubs_validated t'
  | _ :: t' => pubs_validated t'
  end.

(** Debounced events that concern neither the log nor [w]. *)
Definition unrelated (olp : path) (w : option path) (ev : DebouncedEvent) : bool :=
  negb (path_eqb (event_path ev) olp)
  && match w with Some w => negb (path_eqb (event_path ev) w) | None => true end.

(** [m] keeps the run relation [P]. *)
Definition keeps (P : Wish -> list action -> Wish -> Prop) {A} (m : M A) : Prop :=
  forall env s, let '(_, s', t) := m env s in P s t s'.

(** The net watches of [t] are the change of the recorded cache file. *)
Definition watch_ok (s : Wish) (t : list action) (s' : Wish) : Prop :=
  forall p, net_watches t p = (cache_watched s' p - cache_watched s p)%Z.

(** Every URL published in [t] has the shape of a URL-regex match. *)
Definition shaped (s : Wish) (t : list action) (s' : Wish) : Prop :=
  Forall url_shape (published t).

End Wish.

(** ** Capture backends (capture.rs, capture/pktmon_backend.rs, capture/pcap_backend.rs) *)
Module Capture.

(** [enum CaptureError]; the [anyhow::Error] payloads are their messages. *)
Inductive CaptureError : Type :=
| Filter (error : string)
| Capture (has_captured : bool) (error : string)
| CaptureClosed
| ChannelClosed.

Definition PORT_RANGE : Z * Z := (22101, 22102)%Z.

(** A Rust call that either returns or panics (here: [.unwrap()]). *)
Inductive outcome (A : Type) : Type :=
| Returned (r : result A CaptureError)
| Panicked.
Arguments Returned {A} r.
Arguments Panicked {A}.

(** *** Kernel-monitor backend (pktmon) *)

Inductive TransportProtocol : Type := TCP | UDP.

(** The fields of [PktMonFilter] that the code sets (the others are
    [PktMonFilter::default()]). *)
Record PktMonFilter := {
  filter_name : string;
  transport_protocol : option TransportProtocol;
  port : Z
}.

(** The pktmon library: opening a session, [add_filter] on a session that
    already has the given filters, and [capture.stream()]. *)
Record pktmon_env := {
  pm_capture_new : result unit string;
  pm_add_filter : list PktMonFilter -> PktMonFilter -> result unit string;
  pm_stream_ok : list PktMonFilter -> bool
}.

(** A capture session, represented by the filters installed on it. *)
Definition Session := list PktMonFilter.

Definition add_filter (env : pktmon_env) (capture : Session) (f : PktMonFilter)
  : result Session string :=
  match pm_add_filter env capture f with
  | Ok _ => Ok (capture ++ [f])
  | Err e => Err e
  end.

Definition udp_filter (p : Z) : PktMonFilter :=
  {| filter_name := "UDP Filter"; transport_protocol := Some UDP; port := p |}.

(** The backend keeps the stream of a session: we record that session's filters. *)
Record PktmonBackend := { stream_filters : list PktMonFilter }.

(** [PktmonBackend::new] *)
Definition PktmonBackend_new (env : pktmon_env) : outcome PktmonBackend :=
  match pm_capture_new env with
  | Err e => Returned (Err (Capture false e))
  | Ok _ =>
      let capture : Session := [] in
      match add_filter env capture (udp_filter (fst PORT_RANGE)) with
      | Err e => Returned (Err (Filter e))
      | Ok capture =>
          match add_filter env capture (udp_filter (snd PORT_RANGE)) with
          | Err e => Returned (Err (Filter e))
          | Ok capture =>
              if pm_stream_ok env capture
              then Returned (Ok {| stream_filters := capture |})
              else Panicked
          end
      end
  end.

Record PacketCapture := { pc_stream_filters : list PktMonFilter }.

(** [PacketCapture::new] (capture.rs), the same construction. *)
Definition PacketCapture_new (env : pktmon_env) : outcome PacketCapture :=
  match pm_capture_new env with
  | Err e => Returned (Err (Capture false e))
  | Ok _ =>
      let capture : Session := [] in
      match add_filter env capture (udp_filter (fst PORT_RANGE)) with
      | Err e => Returned (Err (Filter e))
      | Ok capture =>
          match add_filter env capture (udp_filter (snd PORT_RANGE)) with
          | Err e => Returned (Err (Filter e))
          | Ok capture =>
              if pm_stream_ok env capture
              then Returned (Ok {| pc_stream_filters := capture |})
              else Panicked
          end
      end
  end.

(** *** Multi-device backend (pcap) *)

Inductive ConnectionStatus : Type := Unknown | Connected | Disconnected | NotApplicable.

Definition ConnectionStatus_eqb (a b : ConnectionStatus) : bool :=
  match a, b with
  | Unknown, Unknown | Connected, Connected
  | Disconnected, Disconnected | NotApplicable, NotApplicable => true
  | _, _ => false
  end.

Record Device := {
  name : string;
  desc : option string;
  connection_status : ConnectionStatus   (** [device.flags.connection_status] *)
}.

(** The pcap library: [Device::list], [Capture::from_device],
    [.immediate_mode(true).open()] and [capture.filter(expr, true)]. *)
Record pcap_env := {
  pc_device_list : result (list Device) string;
  pc_from_device : Device -> result unit string;
  pc_open : Device -> result unit string;
  pc_filter : Device -> string -> result unit string
}.

Definition get_device_identifier (d : Device) : string :=
  name d ++ " (desc " ++ match desc d with Some s => s | None => "None" end ++ ")".

Definition should_capture_on_device (d : Device) : bool :=
  ConnectionStatus_eqb (connection_status d) Connected.

(** [format!("udp and portrange {}-{}", PORT_RANGE.0, PORT_RANGE.1)] *)
Definition filter_expression : string := "udp and portrange 22101-22102".

(** An active, filtered capture handle. *)
Record ActiveCapture := { active_device : Device; active_filter : string }.

(** [PcapBackend::setup_device_capture] *)
Definition setup_device_capture (env : pcap_env) (device : Device) (fe : string)
  : result (string * ActiveCapture) CaptureError :=
  let device_identifier := get_device_identifier device in
  match pc_from_device env device with
  | Err e => Err (Capture false e)
  | Ok _ =>
      match pc_open env device with
      | Err e => Err (Capture false e)
      | Ok _ =>
          match pc_filter env device fe with
          | Err e => Err (Filter e)
          | Ok _ => Ok (device_identifier, {| active_device := device; active_filter := fe |})
          end
      end
  end.

(** The [for device in devices] loop of [PcapBackend::new]: the successful
    captures in order, and the devices [setup_device_capture] was called on. *)
Fixpoint try_devices (env : pcap_env) (fe : string) (devices : list Device)
  : list (string * ActiveCapture) * list Device :=
  match devices with
  | [] => ([], [])
  | device :: rest =>
      let '(successful, attempted) := try_devices env fe rest in
      if negb (should_capture_on_device device) then (successful, attempted)
      else
        match setup_device_capture env device fe with
        | Ok capture => (capture :: successful, device :: attempted)
        | Err _ => (successful, device :: attempted)
        end
  end.

(** The backend: one spawned [packet_loop] per successful capture, all
    sending into [packet_rx]. *)
Record PcapBackend := { packet_loops : list (string * ActiveCapture) }.

(** [PcapBackend::new], with the devices it attempted. *)
Definition PcapBackend_new (env : pcap_env) : result PcapBackend CaptureError * list Device :=
  match pc_device_list env with
  | Err e => (Err (Capture false e), [])
  | Ok devices =>
      let '(successful_captures, attempted) := try_devices env filter_expression devices in
      match successful_captures with
      | [] => (Err (Capture false "No capture device available"), attempted)
      | _ => (Ok {| packet_loops := successful_captures |}, attempted)
      end
  end.

(** *** [PcapBackend::packet_loop]

    Each step of the thread: the result of [capture.next_packet()], and
    whether a [packet_tx.send] made at that step succeeds (it fails once the
    receiver is dropped). *)
Inductive read_result : Type :=
| RPacket (data : list Byte.byte)
| RError (e : string).

Inductive loop_exit : Type :=
| ExitChannelClosed   (** [break] after a failed send of a packet *)
| ExitReadError       (** [break] after a read error *)
| Blocked.            (** still running: waiting in [next_packet] *)

(** Returns the items passed to [packet_tx.send], in order, and how the
    thread ended. *)
Fixpoint packet_loop_go (has_captured : bool) (steps : list (read_result * bool))
  : list (result (list Byte.byte) CaptureError) * loop_exit :=
  match steps with
  | [] => ([], Blocked)
  | (RPacket data, send_ok) :: rest =>
      let has_captured := true in
      if negb send_ok then ([Ok data], ExitChannelClosed)
      else
        let '(sent, ex) := packet_loop_go has_captured rest in
        (Ok data :: sent, ex)
  | (RError err, _) :: _ =>
      ([Err (Capture has_captured err)], ExitReadError)
  end.

Definition packet_loop (steps : list (read_result * bool))
  : list (result (list Byte.byte) CaptureError) * loop_exit :=
  packet_loop_go false steps.

(** *** Observations used by the statements *)

(** The two filters [PktmonBackend::new] installs. *)
Definition f1 : PktMonFilter := udp_filter 22101.
Definition f2 : PktMonFilter := udp_filter 22102.

(** The capture [PcapBackend::new] keeps for [device], if any. *)
Definition kept_capture (env : pcap_env) (fe : string) (device : Device)
  : list (string * ActiveCapture) :=
  if should_capture_on_device device then
    match setup_device_capture env device fe with
    | Ok c => [c]
    | Err _ => []
    end
  else [].

(** Steps in which each of [pkts] is read and sent successfully. *)
Definition delivered (pkts : list (list Byte.byte)) : list (read_result * bool) :=
  map (fun p => (RPacket p, true)) pkts.

(** *** [impl Display for CaptureError] (capture.rs)

    [{}] on a [bool] prints [true] / [false]; on an [anyhow::Error] its
    message, which is the string we carry. *)
Definition bool_to_string (b : bool) : string := if b then "true" else "false".

Definition display (e : CaptureError) : string :=
  match e with
  | Filter error => "Filter error: " ++ error
  | Capture has_captured error =>
      "Capture error (has_captured = " ++ bool_to_string has_captured ++ "): " ++ error
  | CaptureClosed => "Capture closed"
  | ChannelClosed => "Channel closed"
  end.

(** *** [next_packet] of the pcap backend

    The receiving end of the unbounded channel: the items not yet received,
    and how many senders are alive (the clones moved into the capture
    threads; the original [packet_tx] is dropped when [new] returns).
    [recv()] is [None] once the queue is empty and no sender is left; while
    a sender is alive and the queue is empty it waits. *)
Record PacketQueue := {
  queued : list (result (list Byte.byte) CaptureError);
  senders : nat
}.

(** [Some (r, q')]: the call returns [r], leaving [q']; [None]: it waits. *)
Definition pcap_next_packet (q : PacketQueue)
  : option (result (list Byte.byte) CaptureError * PacketQueue) :=
  match queued q with
  | item :: rest =>
      let q' := {| queued := rest; senders := senders q |} in
      match item with
      | Ok packet => Some (Ok packet, q')
      | Err err => Some (Err err, q')
      end
  | [] => if Nat.eqb (senders q) 0 then Some (Err CaptureClosed, q) else None
  end.

(** The results of [n] successive calls (stopping at the first wait). *)
Fixpoint pcap_poll (n : nat) (q : PacketQueue) : list (result (list Byte.byte) CaptureError) :=
  match n with
  | O => []
  | S n' =>
      match pcap_next_packet q with
      | Some (r, q') => r :: pcap_poll n' q'
      | None => []
      end
  end.

(** *** [next_packet] of the pktmon backend

    A pktmon [Packet] (only its payload is used) and the fused stream of
    the session: the packets still to come, and whether the stream has
    terminated after them.  [select!] returns the next packet's payload
    when one is ready and takes its [complete] branch once the fused stream
    is terminated. *)
Record Packet := { payload : list Byte.byte }.

Record PacketStream := {
  pending : list Packet;
  terminated : bool
}.

Definition pktmon_next_packet (st : PacketStream)
  : option (result (list Byte.byte) CaptureError * PacketStream) :=
  match pending st with
  | packet :: rest => Some (Ok (payload packet), {| pending := rest; terminated := terminated st |})
  | [] => if terminated st then Some (Err CaptureClosed, st) else None
  end.

Fixpoint pktmon_poll (n : nat) (st : PacketStream) : list (result (list Byte.byte) CaptureError) :=
  match n with
  | O => []
  | S n' =>
      match pktmon_next_packet st with
      | Some (r, st') => r :: pktmon_poll n' st'
      | None => []
      end
  end.

(** What a capture thread may send: a packet or a [Capture] error. *)
Definition thread_item (r : result (list Byte.byte) CaptureError) : Prop :=
  match r with
  | Ok _ | Err (Capture _ _) => True
  | _ => False
  end.

End Capture.

(** ** Concrete worlds used to evaluate the embedding *)
Module Fixtures.
Import Wish.

Definition mk_env (log : option (list io_line)) (webcaches : option (list dir_item))
  (cache : option string) (http : string -> option Z) : wish_env :=
  {| env_userprofile := Some "C:/Users/player";
     env_debouncer_ok := true;
     env_watch := fun _ => true;
     env_read_lines := fun _ => log;
     env_read_dir := fun _ => webcaches;
     env_read_file := fun _ => cache;
     env_http := http |}.

Definition user_log_path : path :=
  ["C:/Users/player"; "AppData"; "LocalLow"; "miHoYo"; "Genshin Impact"; "output_log.txt"].

Definition fresh_wish : Wish :=
  {| self_output_log_path := user_log_path; web_cache_path := None; prev_url := "" |}.

(** A log written by two game sessions, the older first. *)
Definition two_session_log : list io_line :=
  [ Line "[Subsystems] Discovering subsystems at path C:/Old/GenshinImpact_Data/UnitySubsystems";
    Line "[Subsystems] Discovering subsystems at path D:/New/GenshinImpact_Data/UnitySubsystems" ].

(** A log written by a single session. *)
Definition one_session_log : list io_line :=
  [ Line "[Subsystems] Discovering subsystems at path D:/New/GenshinImpact_Data/UnitySubsystems" ].

Definition dir_entry (n : string) (is_dir : bool) (m : Z) : dir_item :=
  Entry {| entry_name := n; entry_metadata := Some {| md_is_dir := is_dir; md_modified := Some m |} |}.

Definition cache_path : path := ["D:/New/GenshinImpact_Data"; "webCaches"; "2.40.0.0"; "Cache"; "Cache_Data"; "data_2"].

Definition url_a : string := "https://a.example/webview_gacha?authkey=A&game_biz=".
Definition url_b : string := "https://b.example/webview_gacha?authkey=B&game_biz=".

(** A cache file holding two URLs, the older first. *)
Definition two_url_cache : string := "x" ++ url_a ++ "hk4e_global junk " ++ url_b ++ "hk4e_global".

Definition wish_at (w : option path) (prev : string) : Wish :=
  {| self_output_log_path := user_log_path; web_cache_path := w; prev_url := prev |}.

(** Two adapters: a disconnected virtual one and a connected NIC. *)
Definition vpn_device : Capture.Device :=
  {| Capture.name := "vpn0"; Capture.desc := None; Capture.connection_status := Capture.Disconnected |}.
Definition nic_device : Capture.Device :=
  {| Capture.name := "eth0"; Capture.desc := Some "Ethernet"; Capture.connection_status := Capture.Connected |}.

Definition two_device_pcap : Capture.pcap_env :=
  {| Capture.pc_device_list := Ok [vpn_device; nic_device];
     Capture.pc_from_device := fun _ => Ok tt;
     Capture.pc_open := fun _ => Ok tt;
     Capture.pc_filter := fun _ _ => Ok tt |}.

(** A monitor that moves from one web cache directory to a newer one. *)
Definition env_v1 : wish_env :=
  mk_env (Some one_session_log) (Some [dir_entry "2.40.0.0" true 5%Z])
    (Some two_url_cache) (fun _ => Some 0%Z).
Definition env_v2 : wish_env :=
  mk_env (Some one_session_log) (Some [dir_entry "2.40.0.0" true 5%Z; dir_entry "2.41.0.0" true 9%Z])
    (Some two_url_cache) (fun _ => Some 0%Z).

Definition log_with_broken_line : list io_line :=
  [Line "[Subsystems] loading"; LineError] ++ one_session_log.

Definition game_2_40 : DirEntry :=
  {| entry_name := "2.40.0.0";
     entry_metadata := Some {| md_is_dir := true; md_modified := Some 5%Z |} |}.

Definition cache_path_2_41 : path :=
  ["D:/New/GenshinImpact_Data"; "webCaches"; "2.41.0.0"; "Cache"; "Cache_Data"; "data_2"].

End Fixtures.

(** * Proofs *)

Lemma path_eqb_eq (p q : path) : path_eqb p q = true <-> p = q.
Proof. unfold path_eqb; destruct (list_eq_dec string_dec p q); split; congruence. Qed.

Module WishProofs.
Import Wish Fixtures.

Example two_session_log_matches :
  map (fun l => match l with Line s => game_data_find s | LineError => None end) two_session_log
  = [Some "C:/Old/GenshinImpact_Data"; Some "D:/New/GenshinImpact_Data"].
Proof. vm_compute. reflexivity. Qed.

(** The scan of [get_data_dir] stops at the first line with a match. *)
Lemma scan_log_lines_first (lp : path) (pre : list string) (l m : string) (post : list io_line) :
  Forall (fun x => game_data_find x = None) pre ->
  game_data_find l = Some m ->
  scan_log_lines lp (map Line pre ++ Line l :: post) = Ok [m].
Proof.
  intros Hpre Hl; induction Hpre as [|x pre Hx Hpre IH]; simpl.
  - now rewrite Hl.
  - now rewrite Hx.
Qed.

(** C1 (counterexample): with two session lines in the log, the older
    (first) one decides the game-data directory, not the most recent. *)
Lemma C1_first_session_line_wins :
  get_data_dir (mk_env (Some two_session_log) None None (fun _ => None)) fresh_wish
  = (Ok ["C:/Old/GenshinImpact_Data"], fresh_wish, [])
  /\ get_data_dir (mk_env (Some two_session_log) None None (fun _ => None)) fresh_wish
     <> (Ok ["D:/New/GenshinImpact_Data"], fresh_wish, []).
Proof. split; vm_compute; [reflexivity | congruence]. Qed.

(** C1 (as amended): [Wish::get_data_dir] takes the game-data directory from
    the first line of the log that matches the session-data-directory
    pattern (the leftmost match in that line); the lines after it are not
    read. *)
Theorem C1_get_data_dir_first_match (env : wish_env) (s : Wish)
    (pre : list string) (l m : string) (post : list io_line) :
  env_read_lines env (self_output_log_path s) = Some (map Line pre ++ Line l :: post) ->
  Forall (fun x => game_data_find x = None) pre ->
  game_data_find l = Some m ->
  get_data_dir env s = (Ok [m], s, []).
Proof.
  intros Hread Hpre Hl.
  unfold get_data_dir, bind, get, ask, lift, get_data_dir_pure; simpl.
  rewrite Hread, (scan_log_lines_first _ _ _ _ _ Hpre Hl); reflexivity.
Qed.

Lemma C1_get_data_dir_first_match_witness :
  env_read_lines (mk_env (Some two_session_log) None None (fun _ => None)) user_log_path
    = Some (map Line [] ++ Line "[Subsystems] Discovering subsystems at path C:/Old/GenshinImpact_Data/UnitySubsystems"
            :: [Line "[Subsystems] Discovering subsystems at path D:/New/GenshinImpact_Data/UnitySubsystems"])
  /\ get_data_dir (mk_env (Some two_session_log) None None (fun _ => None)) fresh_wish
     = (Ok ["C:/Old/GenshinImpact_Data"], fresh_wish, []).
Proof.
  split; [reflexivity|].
  apply (C1_get_data_dir_first_match _ fresh_wish []
           "[Subsystems] Discovering subsystems at path C:/Old/GenshinImpact_Data/UnitySubsystems"
           "C:/Old/GenshinImpact_Data"
           [Line "[Subsystems] Discovering subsystems at path D:/New/GenshinImpact_Data/UnitySubsystems"]).
  - reflexivity.
  - constructor.
  - vm_compute; reflexivity.
Defined.

Lemma dir_mtime_of (e : DirEntry) (md : Metadata) (m m' : Z) :
  entry_metadata e = Some md -> md_modified md = Some m -> dir_mtime e m' -> m' = m.
Proof. intros He Hm (md' & He' & _ & Hm'); congruence. Qed.

Lemma dir_mtime_not_dir (e : DirEntry) (md : Metadata) (m : Z) :
  entry_metadata e = Some md -> md_is_dir md = false -> ~ dir_mtime e m.
Proof. intros He Hd (md' & He' & Hd' & _); congruence. Qed.

(** The [latest_dir] loop keeps the first entry of the greatest
    modification time, among the directories newer than the start value. *)
Lemma scan_entries_spec (wc : path) (es : list DirEntry) (t : Z) (o : option path) :
  entries_readable es ->
  exists t' o', scan_entries wc (t, o) (map Entry es) = Ok (t', o') /\
    (((forall e m, In e es -> dir_mtime e m -> (m <= t)%Z) /\ t' = t /\ o' = o)
     \/ (exists pre e post m, es = pre ++ e :: post /\ dir_mtime e m /\ (t < m)%Z /\
           t' = m /\ o' = Some (push wc [entry_name e]) /\
           (forall e' m', In e' pre -> dir_mtime e' m' -> (m' < m)%Z) /\
           (forall e' m', In e' post -> dir_mtime e' m' -> (m' <= m)%Z))).
Proof.
  revert t o; induction es as [|e es IH]; intros t o Hr.
  - exists t, o; split; [reflexivity|left; repeat split; auto].
    intros e m [].
  - destruct (Hr e (or_introl eq_refl)) as (md & Hmd & Hmod).
    assert (Hr' : entries_readable es) by (intros e' Hin; apply Hr; right; exact Hin).
    simpl; rewrite Hmd.
    destruct (md_is_dir md) eqn:Hdir; simpl.
    + destruct (Hmod eq_refl) as [m Hm]; rewrite Hm.
      assert (He : dir_mtime e m) by (exists md; auto).
      assert (Hm_e : forall m'', dir_mtime e m'' -> m'' = m)
        by (intros m'' Hd; exact (dir_mtime_of _ _ _ _ Hmd Hm Hd)).
      destruct (Z.ltb_spec t m) as [Hlt|Hle]; simpl.
      * destruct (IH m (Some (push wc [entry_name e])) Hr') as (t' & o' & Hs & Hcase).
        exists t', o'; split; [exact Hs|right].
        destruct Hcase as [(Hall & -> & ->) | (pre & e' & post & m' & -> & He' & Hlt' & -> & -> & Hpre & Hpost)].
        -- exists [], e, es, m.
           split; [reflexivity|split; [exact He|split; [exact Hlt|split; [reflexivity|split; [reflexivity|split]]]]].
           ++ intros e'' m'' [].
           ++ exact Hall.
        -- exists (e :: pre), e', post, m'.
           split; [reflexivity|split; [exact He'|split; [lia|split; [reflexivity|split; [reflexivity|split]]]]].
           ++ intros e'' m'' [<-|Hin] Hd; [rewrite (Hm_e _ Hd); exact Hlt'|exact (Hpre _ _ Hin Hd)].
           ++ exact Hpost.
      * destruct (IH t o Hr') as (t' & o' & Hs & Hcase).
        exists t', o'; split; [exact Hs|].
        destruct Hcase as [(Hall & -> & ->) | (pre & e' & post & m' & -> & He' & Hlt' & -> & -> & Hpre & Hpost)].
        -- left; split; [|split; reflexivity].
           intros e'' m'' [<-|Hin] Hd; [rewrite (Hm_e _ Hd); exact Hle|exact (Hall _ _ Hin Hd)].
        -- right; exists (e :: pre), e', post, m'.
           split; [reflexivity|split; [exact He'|split; [exact Hlt'|split; [reflexivity|split; [reflexivity|split]]]]].
           ++ intros e'' m'' [<-|Hin] Hd; [rewrite (Hm_e _ Hd); lia|exact (Hpre _ _ Hin Hd)].
           ++ exact Hpost.
    + destruct (IH t o Hr') as (t' & o' & Hs & Hcase).
      exists t', o'; split; [exact Hs|].
      destruct Hcase as [(Hall & -> & ->) | (pre & e' & post & m' & -> & He' & Hlt' & -> & -> & Hpre & Hpost)].
      * left; split; [|split; reflexivity].
        intros e'' m'' [<-|Hin] Hd; [|exact (Hall _ _ Hin Hd)].
        exfalso; exact (dir_mtime_not_dir _ _ _ Hmd Hdir Hd).
      * right; exists (e :: pre), e', post, m'.
        split; [reflexivity|split; [exact He'|split; [exact Hlt'|split; [reflexivity|split; [reflexivity|split]]]]].
        -- intros e'' m'' [<-|Hin] Hd; [|exact (Hpre _ _ Hin Hd)].
           exfalso; exact (dir_mtime_not_dir _ _ _ Hmd Hdir Hd).
        -- exact Hpost.
Qed.

Lemma scan_entries_app (wc : path) (acc : Z * option path) (l1 l2 : list dir_item) :
  scan_entries wc acc (l1 ++ l2)
  = match scan_entries wc acc l1 with
    | Ok acc' => scan_entries wc acc' l2
    | Err e => Err e
    end.
Proof.
  revert acc; induction l1 as [|[e|] l1 IH]; intros acc; simpl; [reflexivity| |reflexivity].
  destruct (entry_metadata e) as [md|]; [|reflexivity].
  destruct (md_is_dir md); simpl; [|apply IH].
  destruct (md_modified md); [|reflexivity].
  destruct (Z.ltb (fst acc) z); apply IH.
Qed.

(** *** Evaluation of the handlers *)

Lemma get_web_cache_path_pure (env : wish_env) (s : Wish) :
  get_web_cache_path env s = (fst (fst (get_web_cache_path env s)), s, []).
Proof.
  unfold get_web_cache_path, get_data_dir, bind, get, ask, lift, ret, throw; simpl.
  destruct (get_data_dir_pure env (self_output_log_path s)); simpl; [|reflexivity].
  destruct (get_web_cache_dir env a); reflexivity.
Qed.

Lemma handle_web_cache_dir_update_eval (env : wish_env) (s : Wish) (p : path) (c u : string) :
  web_cache_path s = Some p -> env_read_file env p = Some c ->
  last_opt (url_find_all c) = Some u ->
  handle_web_cache_dir_update env s =
  if String.eqb u (prev_url s) then (Ok tt, s, [ReadCache p])
  else match env_http env u with
       | None => (Err ValidationRequestError, s, [ReadCache p; Validate u])
       | Some rc =>
           if Z.eqb rc 0 then (Ok tt, set_prev_url s u, [ReadCache p; Validate u; Publish u])
           else (Err (ErrorCode rc), s, [ReadCache p; Validate u])
       end.
Proof.
  intros Hw Hr Hu.
  unfold handle_web_cache_dir_update, validate_url, bind, get, ask, put, emit, ret, throw; simpl.
  rewrite Hw; simpl; rewrite Hr, Hu.
  destruct (String.eqb u (prev_url s)); [reflexivity|].
  destruct (env_http env u) as [rc|]; [|reflexivity].
  destruct (Z.eqb rc 0); reflexivity.
Qed.

(** [handle_web_cache_dir_update] starts by reading the watched file and
    never changes which file is watched. *)
Lemma handle_web_cache_dir_update_shape (env : wish_env) (s : Wish) (p : path) :
  web_cache_path s = Some p ->
  let '(_, s', t) := handle_web_cache_dir_update env s in
  web_cache_path s' = Some p /\ exists t', t = ReadCache p :: t'.
Proof.
  intros Hw.
  destruct (env_read_file env p) as [c|] eqn:Hr.
  - destruct (last_opt (url_find_all c)) as [u|] eqn:Hu.
    + rewrite (handle_web_cache_dir_update_eval env s p c u Hw Hr Hu).
      destruct (String.eqb u (prev_url s)); [split; eauto|].
      destruct (env_http env u) as [rc|]; [|split; eauto].
      destruct (Z.eqb rc 0); split; eauto.
    + unfold handle_web_cache_dir_update, bind, get, ask, emit, throw; simpl.
      rewrite Hw; simpl; rewrite Hr, Hu; split; eauto.
  - unfold handle_web_cache_dir_update, bind, get, ask, emit, throw; simpl.
    rewrite Hw; simpl; rewrite Hr; split; eauto.
Qed.

Lemma handle_log_update_eq (env : wish_env) (s : Wish) :
  handle_log_update env s =
  match fst (fst (get_web_cache_path env s)) with
  | Err e => (Err e, s, [])
  | Ok w =>
      let '(r, s2, t) := try_log handle_web_cache_dir_update env (set_web_cache_path s (Some w)) in
      (r, s2, match web_cache_path s with Some old => [Unwatch old] | None => [] end ++ Watch w :: t)
  end.
Proof.
  unfold handle_log_update at 1; unfold bind at 1.
  rewrite get_web_cache_path_pure.
  destruct (fst (fst (get_web_cache_path env s))) as [w|e]; [|reflexivity].
  unfold bind, get, put, emit, ret; simpl.
  destruct (web_cache_path s) as [old|]; simpl;
    destruct (try_log handle_web_cache_dir_update env _) as [[r s2] t]; reflexivity.
Qed.

(** *** The web-cache directory (C5) *)

(** C5 (counterexample): a web-cache folder whose only subdirectory has
    modification time [UNIX_EPOCH] yields no directory at all. *)
Lemma C5_epoch_subdirectory_not_selected :
  get_web_cache_dir (mk_env None (Some [dir_entry "2.40.0.0" true 0]) None (fun _ => None))
    ["D:/New/GenshinImpact_Data"]
  = Err (NoDirectory ["D:/New/GenshinImpact_Data"; "webCaches"]).
Proof. reflexivity. Qed.

(** C5 (as amended): [get_web_cache_dir] ignores non-directory entries and,
    whatever their names, returns the subdirectory with the greatest
    modification time (the first listed among equal times), provided that
    time is after [UNIX_EPOCH]; when no subdirectory is newer than the
    epoch (in particular when there is none) it fails, and so it does when
    the [webCaches] folder cannot be opened or when an entry, its metadata
    or a directory's modification time cannot be read.  On success the
    monitor watches [Cache/Cache_Data/data_2] under the selected
    subdirectory (after unwatching the previous file, if any) and reads it;
    when the step fails, [handle_log_update] changes nothing and does
    nothing, the error is only logged, and the next log event runs
    [handle_log_update] again from the same state. *)
Theorem C5_get_web_cache_dir_latest (env : wish_env) (s : Wish) (data_dir : path) :
  let web_caches := push data_dir ["webCaches"] in
  (forall es, env_read_dir env web_caches = Some (map Entry es) -> entries_readable es ->
     (forall p, get_web_cache_dir env data_dir = Ok p ->
        exists pre e post m, es = pre ++ e :: post /\ dir_mtime e m /\ (UNIX_EPOCH < m)%Z /\
          p = push web_caches [entry_name e] /\
          (forall e' m', In e' pre -> dir_mtime e' m' -> (m' < m)%Z) /\
          (forall e' m', In e' post -> dir_mtime e' m' -> (m' <= m)%Z))
     /\ ((exists e m, In e es /\ dir_mtime e m /\ (UNIX_EPOCH < m)%Z) ->
          exists p, get_web_cache_dir env data_dir = Ok p)
     /\ ((forall e m, In e es -> dir_mtime e m -> (m <= UNIX_EPOCH)%Z) ->
          get_web_cache_dir env data_dir = Err (NoDirectory web_caches)))
  /\ (env_read_dir env web_caches = None ->
       get_web_cache_dir env data_dir = Err (CouldNotOpenDirectory web_caches))
  /\ (forall pre post, entries_readable pre ->
       let listing x := env_read_dir env web_caches = Some (map Entry pre ++ x :: post) in
       (listing EntryError -> get_web_cache_dir env data_dir = Err DirEntryError)
       /\ (forall e, entry_metadata e = None -> listing (Entry e) ->
             get_web_cache_dir env data_dir = Err MetadataError)
       /\ (forall e md, entry_metadata e = Some md -> md_is_dir md = true -> md_modified md = None ->
             listing (Entry e) -> get_web_cache_dir env data_dir = Err ModifiedError))
  /\ (get_data_dir_pure env (self_output_log_path s) = Ok data_dir ->
       forall p, get_web_cache_dir env data_dir = Ok p ->
       let w := push p ["Cache"; "Cache_Data"; "data_2"] in
       get_web_cache_path env s = (Ok w, s, [])
       /\ let '(_, s', t) := handle_log_update env s in
          web_cache_path s' = Some w
          /\ exists t', t = match web_cache_path s with Some old => [Unwatch old] | None => [] end
                             ++ Watch w :: ReadCache w :: t')
  /\ (get_data_dir_pure env (self_output_log_path s) = Ok data_dir ->
       forall e, get_web_cache_dir env data_dir = Err e ->
       handle_log_update env s = (Err e, s, [])
       /\ (forall olp env', handle_event olp {| event_path := olp |} env' s
                            = try_log handle_log_update env' s)
       /\ (forall olp, handle_event olp {| event_path := olp |} env s = (Ok tt, s, [Log e]))).
Proof.
  intros web_caches.
  assert (Hev : forall olp env', handle_event olp {| event_path := olp |} env' s
                                 = try_log handle_log_update env' s).
  { intros olp env'; unfold handle_event; simpl.
    assert (Hr : path_eqb olp olp = true) by (apply path_eqb_eq; reflexivity).
    rewrite Hr; reflexivity. }
  assert (Hgw : get_data_dir_pure env (self_output_log_path s) = Ok data_dir ->
                forall p, get_web_cache_dir env data_dir = Ok p ->
                get_web_cache_path env s = (Ok (push p ["Cache"; "Cache_Data"; "data_2"]), s, [])).
  { intros Hd p Hp.
    unfold get_web_cache_path, get_data_dir, bind, get, ask, lift, ret; simpl.
    rewrite Hd, Hp; reflexivity. }
  assert (Hfail : get_data_dir_pure env (self_output_log_path s) = Ok data_dir ->
                  forall e, get_web_cache_dir env data_dir = Err e ->
                  handle_log_update env s = (Err e, s, [])).
  { intros Hd e He.
    unfold handle_log_update, get_web_cache_path, get_data_dir, bind, get, ask, lift, ret, throw; simpl.
    rewrite Hd, He; reflexivity. }
  split; [|split; [|split; [|split]]].
  - intros es Hdir Hr.
    destruct (scan_entries_spec web_caches es UNIX_EPOCH None Hr) as (t' & o' & Hs & Hcase).
    assert (Hg : get_web_cache_dir env data_dir =
                 match o' with
                 | Some p => Ok p
                 | None => Err (NoDirectory web_caches)
                 end).
    { unfold get_web_cache_dir; fold web_caches; rewrite Hdir, Hs; destruct o'; reflexivity. }
    split; [|split].
    + intros p Hp; rewrite Hg in Hp.
      destruct Hcase as [(_ & _ & ->) | (pre & e & post & m & -> & He & Hlt & _ & -> & Hpre & Hpost)];
        [discriminate|].
      injection Hp as <-; exists pre, e, post, m; repeat split; auto.
    + intros (e & m & Hin & He & Hlt); rewrite Hg.
      destruct Hcase as [(Hall & _ & ->) | (pre & e' & post & m' & _ & _ & _ & _ & -> & _)].
      * specialize (Hall e m Hin He); lia.
      * eexists; reflexivity.
    + intros Hall; rewrite Hg.
      destruct Hcase as [(_ & _ & ->) | (pre & e & post & m & -> & He & Hlt & _)]; [reflexivity|].
      specialize (Hall e m ltac:(apply in_or_app; right; left; reflexivity) He); lia.
  - intros Hn; unfold get_web_cache_dir; fold web_caches; rewrite Hn; reflexivity.
  - intros pre post Hr listing.
    destruct (scan_entries_spec web_caches pre UNIX_EPOCH None Hr) as (t' & o' & Hs & _).
    unfold listing, get_web_cache_dir; fold web_caches; split; [|split].
    + intros ->; rewrite scan_entries_app, Hs; reflexivity.
    + intros e He ->; rewrite scan_entries_app, Hs; simpl; rewrite He; reflexivity.
    + intros e md He Hd Hm ->; rewrite scan_entries_app, Hs; simpl; rewrite He, Hd; simpl;
        rewrite Hm; reflexivity.
  - intros Hd p Hp w; split; [exact (Hgw Hd p Hp)|].
    rewrite handle_log_update_eq, (Hgw Hd p Hp); cbn [fst].
    pose proof (handle_web_cache_dir_update_shape env (set_web_cache_path s (Some w)) w eq_refl)
      as Hsh.
    unfold try_log.
    subst w.
    destruct (handle_web_cache_dir_update env _) as [[r s2] t].
    destruct Hsh as [Hw2 [t' Ht]]; subst t.
    destruct r; (split; [exact Hw2|]); eexists; reflexivity.
  - intros Hd e He; split; [exact (Hfail Hd e He)|split; [exact Hev|]].
    intros olp; rewrite Hev; unfold try_log; rewrite (Hfail Hd e He); reflexivity.
Qed.

Lemma C5_get_web_cache_dir_latest_witness :
  get_web_cache_dir
    (mk_env None (Some [dir_entry "2.38.0.0" true 100; dir_entry "data_1" false 500;
                        dir_entry "2.40.0.0" true 300; dir_entry "2.39.0.0" true 200]) None (fun _ => None))
    ["D:/New/GenshinImpact_Data"]
  = Ok ["D:/New/GenshinImpact_Data"; "webCaches"; "2.40.0.0"]
  /\ get_web_cache_dir (mk_env None (Some [dir_entry "2.40.0.0" true 300; EntryError]) None (fun _ => None))
       ["D:/New/GenshinImpact_Data"]
     = Err DirEntryError
  /\ web_cache_path (snd (fst (handle_log_update
        (mk_env (Some one_session_log) (Some [dir_entry "2.40.0.0" true 300]) None (fun _ => None))
        fresh_wish)))
     = Some cache_path.
Proof.
  split; [|split].
  - set (env := mk_env None (Some [dir_entry "2.38.0.0" true 100; dir_entry "data_1" false 500;
                          dir_entry "2.40.0.0" true 300; dir_entry "2.39.0.0" true 200]) None (fun _ => None)).
    set (es := [ {| entry_name := "2.38.0.0"; entry_metadata := Some {| md_is_dir := true; md_modified := Some 100%Z |} |};
                 {| entry_name := "data_1"; entry_metadata := Some {| md_is_dir := false; md_modified := Some 500%Z |} |};
                 {| entry_name := "2.40.0.0"; entry_metadata := Some {| md_is_dir := true; md_modified := Some 300%Z |} |};
                 {| entry_name := "2.39.0.0"; entry_metadata := Some {| md_is_dir := true; md_modified := Some 200%Z |} |} ]).
    assert (Hr : entries_readable es).
    { intros e Hin; simpl in Hin.
      repeat (destruct Hin as [<-|Hin];
              [eexists; split; [reflexivity|intros _; eexists; reflexivity]|]).
      destruct Hin. }
    destruct (C5_get_web_cache_dir_latest env fresh_wish ["D:/New/GenshinImpact_Data"]) as (Hlist & _).
    destruct (Hlist es eq_refl Hr) as (_ & Hex & _).
    destruct Hex as [p Hp].
    + exists (nth 2 es {| entry_name := ""; entry_metadata := None |}), 300%Z.
      split; [right; right; left; reflexivity|].
      split; [eexists; repeat split; reflexivity|unfold UNIX_EPOCH; lia].
    + rewrite Hp; vm_compute in Hp; exact (eq_sym Hp).
  - destruct (C5_get_web_cache_dir_latest
                (mk_env None (Some [dir_entry "2.40.0.0" true 300; EntryError]) None (fun _ => None))
                fresh_wish ["D:/New/GenshinImpact_Data"]) as (_ & _ & Hbad & _).
    apply (proj1 (Hbad [{| entry_name := "2.40.0.0";
                           entry_metadata := Some {| md_is_dir := true; md_modified := Some 300%Z |} |}] []
                   ltac:(intros e [<-|[]]; eexists; split; [reflexivity|intros _; eexists; reflexivity]))).
    reflexivity.
  - set (env := mk_env (Some one_session_log) (Some [dir_entry "2.40.0.0" true 300]) None (fun _ => None)).
    destruct (C5_get_web_cache_dir_latest env fresh_wish ["D:/New/GenshinImpact_Data"])
      as (_ & _ & _ & Hok & _).
    destruct (Hok ltac:(vm_compute; reflexivity) ["D:/New/GenshinImpact_Data"; "webCaches"; "2.40.0.0"]
                ltac:(vm_compute; reflexivity)) as (_ & Hw).
    destruct (handle_log_update env fresh_wish) as [[r s'] t].
    exact (proj1 Hw).
Defined.

(** *** The publication invariant *)

Lemma published_app (t1 t2 : list action) :
  published (t1 ++ t2) = published t1 ++ published t2.
Proof. induction t1 as [|[] t1 IH]; simpl; try rewrite IH; reflexivity. Qed.

Lemma last_cons_default (b a : string) (l : list string) :
  last (b :: l) a = last l b.
Proof.
  revert a b; induction l as [|c l IH]; intros a b; [reflexivity|].
  change (last (c :: l) a = last (c :: l) b); rewrite !IH; reflexivity.
Qed.

Lemma chain_from_app (a : string) (l1 l2 : list string) :
  chain_from a (l1 ++ l2) <-> chain_from a l1 /\ chain_from (last l1 a) l2.
Proof.
  revert a; induction l1 as [|b l1 IH]; intros a; cbn [app chain_from].
  - simpl; tauto.
  - rewrite IH, last_cons_default; tauto.
Qed.

Lemma last_app_default (l1 l2 : list string) (a : string) :
  last (l1 ++ l2) a = last l2 (last l1 a).
Proof.
  revert a; induction l1 as [|b l1 IH]; intros a; [reflexivity|].
  change (last (b :: (l1 ++ l2)) a = last l2 (last (b :: l1) a)).
  rewrite !last_cons_default; apply IH.
Qed.

Lemma pub_ok_app (s s1 s2 : Wish) (t1 t2 : list action) :
  pub_ok s t1 s1 -> pub_ok s1 t2 s2 -> pub_ok s (t1 ++ t2) s2.
Proof.
  unfold pub_ok; intros [C1 L1] [C2 L2].
  rewrite published_app, chain_from_app, last_app_default, <- L1.
  auto.
Qed.

Lemma pub_ok_refl (s : Wish) : pub_ok s [] s.
Proof. split; simpl; auto. Qed.

(** No two consecutive elements of a chain are equal. *)
Lemma chain_from_no_repeat (a : string) (l : list string) :
  chain_from a l -> forall l1 l2 v, l <> l1 ++ v :: v :: l2.
Proof.
  revert a; induction l as [|b l IH]; intros a H l1 l2 v Heq.
  - destruct l1; discriminate.
  - destruct H as [_ H].
    destruct l1 as [|x l1]; simpl in Heq; injection Heq as -> Heq.
    + subst l; destruct H as [H _]; contradiction.
    + exact (IH _ H l1 l2 v Heq).
Qed.

Lemma keeps_pub_bind {A B} (m : M A) (k : A -> M B) :
  keeps_pub m -> (forall a, keeps_pub (k a)) -> keeps_pub (bind m k).
Proof.
  intros Hm Hk env s; unfold bind.
  specialize (Hm env s); destruct (m env s) as [[[a|e] s1] t1]; [|exact Hm].
  specialize (Hk a env s1); destruct (k a env s1) as [[r s2] t2].
  eapply pub_ok_app; eauto.
Qed.

Lemma keeps_pub_ret {A} (a : A) : keeps_pub (ret a).
Proof. intros env s; apply pub_ok_refl. Qed.

Lemma keeps_pub_try_log (m : M unit) : keeps_pub m -> keeps_pub (try_log m).
Proof.
  intros Hm env s; unfold try_log.
  specialize (Hm env s); destruct (m env s) as [[[[]|e] s1] t1]; [exact Hm|].
  unfold pub_ok in *; rewrite published_app; simpl; rewrite app_nil_r; exact Hm.
Qed.

Lemma keeps_pub_handle_web_cache_dir_update : keeps_pub handle_web_cache_dir_update.
Proof.
  intros env s.
  destruct (web_cache_path s) as [p|] eqn:Hw.
  - destruct (env_read_file env p) as [c|] eqn:Hr.
    + destruct (last_opt (url_find_all c)) as [u|] eqn:Hu.
      * rewrite (handle_web_cache_dir_update_eval env s p c u Hw Hr Hu).
        destruct (String.eqb u (prev_url s)) eqn:Heq; [apply pub_ok_refl|].
        destruct (env_http env u) as [rc|]; [|apply pub_ok_refl].
        destruct (Z.eqb rc 0); [|apply pub_ok_refl].
        split; simpl; [|reflexivity].
        split; [|exact I].
        intros E; rewrite E, String.eqb_refl in Heq; discriminate.
      * unfold handle_web_cache_dir_update, bind, get, ask, emit, throw; simpl.
        rewrite Hw; simpl; rewrite Hr, Hu; apply pub_ok_refl.
    + unfold handle_web_cache_dir_update, bind, get, ask, emit, throw; simpl.
      rewrite Hw; simpl; rewrite Hr; apply pub_ok_refl.
  - unfold handle_web_cache_dir_update, bind, get, ret; simpl.
    rewrite Hw; apply pub_ok_refl.
Qed.

Lemma keeps_pub_handle_log_update : keeps_pub handle_log_update.
Proof.
  intros env s; rewrite handle_log_update_eq.
  destruct (fst (fst (get_web_cache_path env s))) as [w|e]; [|apply pub_ok_refl].
  pose proof (keeps_pub_try_log _ keeps_pub_handle_web_cache_dir_update env
                (set_web_cache_path s (Some w))) as H.
  destruct (try_log handle_web_cache_dir_update env _) as [[r s2] t].
  unfold pub_ok in *; simpl in H.
  destruct (web_cache_path s); simpl; exact H.
Qed.

Lemma keeps_pub_handle_events (olp : path) (events : list DebouncedEvent) :
  keeps_pub (handle_events olp events).
Proof.
  induction events as [|ev evs IH]; simpl; [apply keeps_pub_ret|].
  apply keeps_pub_bind; [|intros; exact IH].
  unfold handle_event; destruct (path_eqb (event_path ev) olp).
  - apply keeps_pub_try_log, keeps_pub_handle_log_update.
  - apply keeps_pub_bind; [intros env s; apply pub_ok_refl|].
    intros s; destruct (web_cache_path s) as [w|]; [|apply keeps_pub_ret].
    destruct (path_eqb (event_path ev) w); [|apply keeps_pub_ret].
    apply keeps_pub_try_log, keeps_pub_handle_web_cache_dir_update.
Qed.

Lemma event_loop_pub_ok (olp : path) (chan : list (wish_env * batch)) (s : Wish) :
  let '(s', t) := event_loop olp chan s in pub_ok s t s'.
Proof.
  revert s; induction chan as [|[env [events|errs]] chan IH]; intros s; simpl;
    try apply pub_ok_refl.
  unfold run_unit.
  pose proof (keeps_pub_handle_events olp events env s) as H1.
  destruct (handle_events olp events env s) as [[r s1] t1].
  specialize (IH s1); destruct (event_loop olp chan s1) as [s2 t2].
  eapply pub_ok_app; eauto.
Qed.

Lemma monitor_pub_ok (env0 : wish_env) (chan : list (wish_env * batch)) (s : Wish) :
  let '(_, s', t) := monitor env0 chan s in pub_ok s t s'.
Proof.
  unfold monitor.
  destruct (output_log_path env0) as [olp|e]; [|apply pub_ok_refl].
  destruct (negb (env_watch env0 olp)); [apply pub_ok_refl|].
  unfold run_unit.
  pose proof (keeps_pub_try_log _ keeps_pub_handle_log_update env0 s) as H1.
  destruct (try_log handle_log_update env0 s) as [[r s1] t1].
  pose proof (event_loop_pub_ok olp chan s1) as H2.
  destruct (event_loop olp chan s1) as [s2 t2].
  exact (pub_ok_app _ _ _ _ _ H1 H2).
Qed.

(** C6: when the URL found in the cache file equals [prev_url],
    [handle_web_cache_dir_update] only reads the file: no validation request
    and no publication; and over any run of [Wish::monitor] the URLs sent on
    [url_tx] never repeat twice in a row. *)
Theorem C6_unchanged_url_not_revalidated (env : wish_env) (s : Wish) (p : path) (c u : string) :
  (web_cache_path s = Some p -> env_read_file env p = Some c ->
   last_opt (url_find_all c) = Some u -> u = prev_url s ->
   handle_web_cache_dir_update env s = (Ok tt, s, [ReadCache p]))
  /\ (forall env0 chan, let '(_, _, t) := monitor env0 chan s in
       forall l1 l2 v, published t <> l1 ++ v :: v :: l2).
Proof.
  split.
  - intros Hw Hr Hu ->.
    rewrite (handle_web_cache_dir_update_eval env s p c (prev_url s) Hw Hr Hu), String.eqb_refl.
    reflexivity.
  - intros env0 chan.
    pose proof (monitor_pub_ok env0 chan s) as H.
    destruct (monitor env0 chan s) as [[r s'] t].
    exact (chain_from_no_repeat _ _ (proj1 H)).
Qed.

Lemma C6_unchanged_url_not_revalidated_witness :
  handle_web_cache_dir_update (mk_env None None (Some two_url_cache) (fun _ => Some 0%Z))
    (wish_at (Some cache_path) url_b)
  = (Ok tt, wish_at (Some cache_path) url_b, [ReadCache cache_path]).
Proof.
  apply (proj1 (C6_unchanged_url_not_revalidated
                  (mk_env None None (Some two_url_cache) (fun _ => Some 0%Z))
                  (wish_at (Some cache_path) url_b) cache_path two_url_cache url_b));
    vm_compute; reflexivity.
Defined.

(** C7: when the URL extracted from the cache file is new but its
    validation fails (request, status or decoding error, or a non-zero
    [retcode]), [handle_web_cache_dir_update] fails leaving the state,
    hence [prev_url], unchanged and sends nothing on [url_tx]; in the event
    loop the failure is logged and the loop goes on with the remaining
    events exactly as if the cache event had not been handled. *)
Theorem C7_validation_failure_nonfatal (env : wish_env) (s : Wish) (p olp : path) (c u : string)
    (ev : DebouncedEvent) (evs : list DebouncedEvent) (rest : list (wish_env * batch)) :
  web_cache_path s = Some p -> env_read_file env p = Some c ->
  last_opt (url_find_all c) = Some u -> u <> prev_url s ->
  (env_http env u = None \/ exists rc, env_http env u = Some rc /\ rc <> 0%Z) ->
  exists e,
    handle_web_cache_dir_update env s = (Err e, s, [ReadCache p; Validate u])
    /\ (event_path ev = p -> p <> olp ->
        event_loop olp ((env, BatchOk (ev :: evs)) :: rest) s
        = let '(s', t) := event_loop olp ((env, BatchOk evs) :: rest) s in
          (s', ReadCache p :: Validate u :: Log e :: t)).
Proof.
  intros Hw Hr Hu Hne Hfail.
  assert (Hneq : String.eqb u (prev_url s) = false) by (apply String.eqb_neq; exact Hne).
  assert (Hh : exists e, handle_web_cache_dir_update env s = (Err e, s, [ReadCache p; Validate u])).
  { rewrite (handle_web_cache_dir_update_eval env s p c u Hw Hr Hu), Hneq.
    destruct Hfail as [-> | (rc & -> & Hrc)]; [eauto|].
    apply Z.eqb_neq in Hrc; rewrite Hrc; eauto. }
  destruct Hh as [e He]; exists e; split; [exact He|].
  intros Hev Hpo.
  assert (Hpath1 : path_eqb (event_path ev) olp = false).
  { destruct (path_eqb (event_path ev) olp) eqn:E; [|reflexivity].
    apply path_eqb_eq in E; congruence. }
  assert (Hpath2 : path_eqb (event_path ev) p = true) by (apply path_eqb_eq; exact Hev).
  cbn [event_loop]; unfold run_unit.
  assert (Hstep : handle_events olp (ev :: evs) env s
                  = let '(r, s1, t1) := handle_events olp evs env s in
                    (r, s1, [ReadCache p; Validate u; Log e] ++ t1)).
  { simpl handle_events; unfold bind at 1, handle_event.
    rewrite Hpath1; unfold bind, get; simpl; rewrite Hw, Hpath2.
    unfold try_log; rewrite He; simpl.
    destruct (handle_events olp evs env s) as [[r s1] t1]; reflexivity. }
  rewrite Hstep.
  destruct (handle_events olp evs env s) as [[r s1] t1].
  destruct (event_loop olp rest s1) as [s2 t2].
  simpl; reflexivity.
Qed.

Lemma C7_validation_failure_nonfatal_witness :
  exists e,
    handle_web_cache_dir_update (mk_env None None (Some two_url_cache) (fun _ => Some (-101)%Z))
      (wish_at (Some cache_path) "")
    = (Err e, wish_at (Some cache_path) "", [ReadCache cache_path; Validate url_b]).
Proof.
  destruct (C7_validation_failure_nonfatal
              (mk_env None None (Some two_url_cache) (fun _ => Some (-101)%Z))
              (wish_at (Some cache_path) "") cache_path user_log_path two_url_cache url_b
              {| event_path := cache_path |} [] [])
    as [e [He _]].
  - reflexivity.
  - reflexivity.
  - vm_compute; reflexivity.
  - vm_compute; discriminate.
  - right; exists (-101)%Z; split; [reflexivity|discriminate].
  - exists e; exact He.
Defined.

(** C8: only the last URL match of the cache file is a candidate: it is
    the only URL that [handle_web_cache_dir_update] validates or publishes,
    and once it validates it is published and becomes [prev_url]. *)
Theorem C8_last_url_match_published (env : wish_env) (s : Wish) (p : path) (c u : string) :
  web_cache_path s = Some p -> env_read_file env p = Some c ->
  last_opt (url_find_all c) = Some u ->
  (let '(_, _, t) := handle_web_cache_dir_update env s in
   forall a, In a t -> a = ReadCache p \/ a = Validate u \/ a = Publish u)
  /\ (u <> prev_url s -> env_http env u = Some 0%Z ->
      handle_web_cache_dir_update env s
      = (Ok tt, set_prev_url s u, [ReadCache p; Validate u; Publish u])).
Proof.
  intros Hw Hr Hu.
  rewrite (handle_web_cache_dir_update_eval env s p c u Hw Hr Hu).
  split.
  - destruct (String.eqb u (prev_url s)).
    + intros a [<-|[]]; auto.
    + destruct (env_http env u) as [rc|].
      * destruct (Z.eqb rc 0); intros a Ha; simpl in Ha; intuition.
      * intros a Ha; simpl in Ha; intuition.
  - intros Hne Hok.
    apply String.eqb_neq in Hne; rewrite Hne, Hok; reflexivity.
Qed.

Example two_url_cache_matches : url_find_all two_url_cache = [url_a; url_b].
Proof. vm_compute; reflexivity. Qed.

Lemma C8_last_url_match_published_witness :
  handle_web_cache_dir_update (mk_env None None (Some two_url_cache) (fun _ => Some 0%Z))
    (wish_at (Some cache_path) "")
  = (Ok tt, wish_at (Some cache_path) url_b, [ReadCache cache_path; Validate url_b; Publish url_b]).
Proof.
  apply (proj2 (C8_last_url_match_published
                  (mk_env None None (Some two_url_cache) (fun _ => Some 0%Z))
                  (wish_at (Some cache_path) "") cache_path two_url_cache url_b
                  eq_refl eq_refl ltac:(vm_compute; reflexivity)));
    [vm_compute; discriminate|reflexivity].
Defined.

(** C9: when the log yields a cache path [w], [handle_log_update] first
    unwatches the previously watched cache path (if any), then watches [w],
    and its very next action reads [w] to extract the URL; [w] becomes the
    watched cache path. *)
Theorem C9_unwatch_then_watch_then_extract (env : wish_env) (s : Wish) (w : path) :
  fst (fst (get_web_cache_path env s)) = Ok w ->
  let '(r, s', t) := handle_log_update env s in
  r = Ok tt /\ web_cache_path s' = Some w /\
  exists t', t = match web_cache_path s with Some old => [Unwatch old] | None => [] end
                 ++ Watch w :: ReadCache w :: t'.
Proof.
  intros Hg; rewrite handle_log_update_eq, Hg.
  pose proof (handle_web_cache_dir_update_shape env (set_web_cache_path s (Some w)) w eq_refl) as H.
  unfold try_log.
  destruct (handle_web_cache_dir_update env (set_web_cache_path s (Some w))) as [[r s2] t].
  destruct H as [Hw2 [t' ->]].
  destruct r; (split; [reflexivity|split; [exact Hw2|]]); eexists; reflexivity.
Qed.

Example log_update_trace :
  handle_log_update
    (mk_env (Some one_session_log)
       (Some [dir_entry "2.40.0.0" true 300]) (Some two_url_cache) (fun _ => Some 0%Z))
    (wish_at (Some ["old"]) "")
  = (Ok tt, wish_at (Some cache_path) url_b,
     [Unwatch ["old"]; Watch cache_path; ReadCache cache_path; Validate url_b; Publish url_b]).
Proof. vm_compute; reflexivity. Qed.

Lemma C9_unwatch_then_watch_then_extract_witness :
  let '(r, s', t) :=
    handle_log_update
      (mk_env (Some one_session_log)
         (Some [dir_entry "2.40.0.0" true 300]) (Some two_url_cache) (fun _ => Some 0%Z))
      (wish_at (Some ["old"]) "") in
  r = Ok tt /\ web_cache_path s' = Some cache_path /\
  exists t', t = [Unwatch ["old"]] ++ Watch cache_path :: ReadCache cache_path :: t'.
Proof.
  exact (C9_unwatch_then_watch_then_extract
    (mk_env (Some one_session_log)
       (Some [dir_entry "2.40.0.0" true 300]) (Some two_url_cache) (fun _ => Some 0%Z))
    (wish_at (Some ["old"]) "") cache_path ltac:(vm_compute; reflexivity)).
Defined.

Lemma event_loop_err_batch (olp : path) (pre rest : list (wish_env * batch))
    (env : wish_env) (errs : list string) (s : Wish) :
  Forall (fun b => exists evs, snd b = BatchOk evs) pre ->
  event_loop olp (pre ++ (env, BatchErr errs) :: rest) s = event_loop olp pre s.
Proof.
  intros H; revert s; induction H as [|[env' b] pre [evs Hb] H IH]; intros s; [reflexivity|].
  simpl in Hb; subst b; simpl.
  destruct (run_unit (handle_events olp evs) env' s) as [s1 t1].
  rewrite IH; reflexivity.
Qed.

(** C10: once the debounced channel yields an error batch, [Wish::monitor]
    behaves as if the channel had closed at that point: nothing after it is
    handled, nothing is logged for it, and (when the log watch could be set
    up) [monitor] returns [Ok(())]. *)
Theorem C10_watcher_error_stops_monitor (env0 env : wish_env) (pre rest : list (wish_env * batch))
    (errs : list string) (s : Wish) :
  Forall (fun b => exists evs, snd b = BatchOk evs) pre ->
  monitor env0 (pre ++ (env, BatchErr errs) :: rest) s = monitor env0 pre s
  /\ (forall olp, output_log_path env0 = Ok olp -> env_watch env0 olp = true ->
        fst (fst (monitor env0 pre s)) = Ok tt).
Proof.
  intros Hpre; split.
  - unfold monitor.
    destruct (output_log_path env0) as [olp|e]; [|reflexivity].
    destruct (negb (env_watch env0 olp)); [reflexivity|].
    destruct (run_unit (try_log handle_log_update) env0 s) as [s1 t1].
    rewrite event_loop_err_batch by exact Hpre; reflexivity.
  - intros olp Holp Hw; unfold monitor; rewrite Holp, Hw; simpl.
    destruct (run_unit (try_log handle_log_update) env0 s) as [s1 t1].
    destruct (event_loop olp pre s1); reflexivity.
Qed.

Lemma C10_watcher_error_stops_monitor_witness :
  monitor (mk_env None None None (fun _ => None))
    [(mk_env None None None (fun _ => None), BatchErr ["watch overflow"]);
     (mk_env None None None (fun _ => None), BatchOk [{| event_path := user_log_path |}])]
    fresh_wish
  = monitor (mk_env None None None (fun _ => None)) [] fresh_wish.
Proof.
  apply (C10_watcher_error_stops_monitor (mk_env None None None (fun _ => None))
           (mk_env None None None (fun _ => None)) []
           [(mk_env None None None (fun _ => None), BatchOk [{| event_path := user_log_path |}])]
           ["watch overflow"] fresh_wish).
  constructor.
Defined.


End WishProofs.

Module CaptureProofs.
Import Capture.

(** [PacketCapture::new] is [PktmonBackend::new] under another name. *)
Lemma PacketCapture_new_as_backend (env : pktmon_env) :
  PacketCapture_new env =
  match PktmonBackend_new env with
  | Returned (Ok b) => Returned (Ok {| pc_stream_filters := stream_filters b |})
  | Returned (Err e) => Returned (Err e)
  | Panicked => Panicked
  end.
Proof.
  unfold PacketCapture_new, PktmonBackend_new, add_filter.
  destruct (pm_capture_new env); [|reflexivity].
  destruct (pm_add_filter env [] _); [|reflexivity].
  destruct (pm_add_filter env _ _); [|reflexivity].
  destruct (pm_stream_ok env _); reflexivity.
Qed.

(** What [PktmonBackend::new] returns, case by case. *)
Lemma PktmonBackend_new_spec (env : pktmon_env) :
  (forall b, PktmonBackend_new env = Returned (Ok b) ->
     pm_capture_new env = Ok tt /\ pm_add_filter env [] f1 = Ok tt /\
     pm_add_filter env [f1] f2 = Ok tt /\ stream_filters b = [f1; f2])
  /\ (forall e, PktmonBackend_new env = Returned (Err e) ->
       (exists m, pm_capture_new env = Err m /\ e = Capture false m)
       \/ (exists m, pm_capture_new env = Ok tt /\ e = Filter m /\
             (pm_add_filter env [] f1 = Err m
              \/ (pm_add_filter env [] f1 = Ok tt /\ pm_add_filter env [f1] f2 = Err m))))
  /\ (forall m, pm_capture_new env = Err m -> PktmonBackend_new env = Returned (Err (Capture false m)))
  /\ (forall m, pm_capture_new env = Ok tt -> pm_add_filter env [] f1 = Err m ->
        PktmonBackend_new env = Returned (Err (Filter m)))
  /\ (forall m, pm_capture_new env = Ok tt -> pm_add_filter env [] f1 = Ok tt ->
        pm_add_filter env [f1] f2 = Err m -> PktmonBackend_new env = Returned (Err (Filter m))).
Proof.
  unfold PktmonBackend_new, add_filter, PORT_RANGE; cbn [fst snd app].
  change (udp_filter 22101) with f1; change (udp_filter 22102) with f2.
  destruct (pm_capture_new env) as [[]|m] eqn:Hc.
  - destruct (pm_add_filter env [] f1) as [[]|m1] eqn:H1.
    + destruct (pm_add_filter env [f1] f2) as [[]|m2] eqn:H2.
      * split; [|split; [|split; [|split]]]; intros; try congruence.
        -- simpl in H; destruct (pm_stream_ok env [f1; f2]); inversion H; subst; auto.
        -- simpl in H; destruct (pm_stream_ok env [f1; f2]); discriminate.
      * split; [|split; [|split; [|split]]]; intros; try congruence.
        inversion H; subst; right; exists m2; auto.
    + split; [|split; [|split; [|split]]]; intros; try congruence.
      inversion H; subst; right; exists m1; auto.
  - split; [|split; [|split; [|split]]]; intros; try congruence.
    inversion H; subst; left; exists m; auto.
Qed.

(** C2 (counterexample): when the session opens but a port filter is
    refused, the error is [CaptureError::Filter], not [CaptureError::Capture]. *)
Lemma C2_filter_failure_is_filter_error :
  let env := {| pm_capture_new := Ok tt;
                pm_add_filter := fun _ _ => Err "access denied";
                pm_stream_ok := fun _ => true |} in
  PktmonBackend_new env = Returned (Err (Filter "access denied"))
  /\ match PktmonBackend_new env with
     | Returned (Err (Capture false _)) => False
     | _ => True
     end.
Proof. split; reflexivity. Qed.

(** C2 (as amended): [PktmonBackend::new] (and [PacketCapture::new]) fail
    with [CaptureError::Capture { has_captured: false, .. }] when the
    capture session cannot be opened and with [CaptureError::Filter] when
    either UDP port filter cannot be installed; in each case construction
    fails, and a backend is returned only when both port filters are
    installed. *)
Theorem C2_pktmon_new_all_or_nothing (env : pktmon_env) :
  (forall m, pm_capture_new env = Err m ->
     PktmonBackend_new env = Returned (Err (Capture false m))
     /\ PacketCapture_new env = Returned (Err (Capture false m)))
  /\ (forall m, pm_capture_new env = Ok tt ->
        (pm_add_filter env [] f1 = Err m
         \/ (pm_add_filter env [] f1 = Ok tt /\ pm_add_filter env [f1] f2 = Err m)) ->
        PktmonBackend_new env = Returned (Err (Filter m))
        /\ PacketCapture_new env = Returned (Err (Filter m)))
  /\ (forall b, PktmonBackend_new env = Returned (Ok b) ->
        pm_add_filter env [] f1 = Ok tt /\ pm_add_filter env [f1] f2 = Ok tt
        /\ stream_filters b = [f1; f2])
  /\ (forall b, PacketCapture_new env = Returned (Ok b) ->
        pm_add_filter env [] f1 = Ok tt /\ pm_add_filter env [f1] f2 = Ok tt
        /\ pc_stream_filters b = [f1; f2]).
Proof.
  destruct (PktmonBackend_new_spec env) as (Hok & _ & Hc & Hf1 & Hf2).
  rewrite !PacketCapture_new_as_backend.
  split; [|split; [|split]].
  - intros m Hm; rewrite (Hc m Hm); auto.
  - intros m Hm [H1 | [H1 H2]].
    + rewrite (Hf1 m Hm H1); auto.
    + rewrite (Hf2 m Hm H1 H2); auto.
  - intros b Hb; destruct (Hok b Hb) as (_ & ? & ? & ?); auto.
  - intros b Hb.
    destruct (PktmonBackend_new env) as [[b'|e]|] eqn:Hn; try discriminate.
    inversion Hb; subst; simpl.
    destruct (Hok b' eq_refl) as (_ & ? & ? & ?); auto.
Qed.

Lemma C2_pktmon_new_all_or_nothing_witness :
  PktmonBackend_new {| pm_capture_new := Ok tt;
                       pm_add_filter := fun fs _ => match fs with [] => Ok tt | _ => Err "port busy" end;
                       pm_stream_ok := fun _ => true |}
  = Returned (Err (Filter "port busy")).
Proof.
  apply (proj1 (proj1 (proj2 (C2_pktmon_new_all_or_nothing
    {| pm_capture_new := Ok tt;
       pm_add_filter := fun fs _ => match fs with [] => Ok tt | _ => Err "port busy" end;
       pm_stream_ok := fun _ => true |})) "port busy" eq_refl (or_intror (conj eq_refl eq_refl)))).
Defined.

Lemma should_capture_on_device_iff (d : Device) :
  should_capture_on_device d = true <-> connection_status d = Connected.
Proof. unfold should_capture_on_device; destruct (connection_status d); simpl; split; congruence. Qed.

Lemma try_devices_eq (env : pcap_env) (fe : string) (devices : list Device) :
  try_devices env fe devices
  = (flat_map (kept_capture env fe) devices, filter should_capture_on_device devices).
Proof.
  induction devices as [|d ds IH]; simpl; [reflexivity|].
  rewrite IH; unfold kept_capture.
  destruct (should_capture_on_device d); simpl; [|reflexivity].
  destruct (setup_device_capture env d fe); reflexivity.
Qed.

Lemma flat_map_kept_nil (env : pcap_env) (fe : string) (devices : list Device) :
  flat_map (kept_capture env fe) devices = [] <->
  forall d, In d devices -> connection_status d = Connected ->
    exists e, setup_device_capture env d fe = Err e.
Proof.
  induction devices as [|d ds IH]; simpl.
  - split; [intros _ d []|reflexivity].
  - unfold kept_capture at 1.
    destruct (should_capture_on_device d) eqn:Hs.
    + apply should_capture_on_device_iff in Hs.
      destruct (setup_device_capture env d fe) as [c|e] eqn:Hd; simpl.
      * split; [discriminate|].
        intros H; destruct (H d (or_introl eq_refl) Hs) as [e He]; congruence.
      * rewrite IH; split.
        -- intros H d' [<-|Hin] Hc; [now exists e|auto].
        -- intros H d' Hin Hc; apply H; auto.
    + simpl; rewrite IH; split.
      * intros H d' [<-|Hin] Hc; [|auto].
        apply should_capture_on_device_iff in Hc; congruence.
      * intros H d' Hin Hc; apply H; auto.
Qed.

(** C3: [PcapBackend::new] succeeds exactly when some enumerated device with
    [Connected] status passes [setup_device_capture] (capture opened and
    filter installed); it keeps exactly those captures, so other devices'
    failures are dropped rather than escalated; it calls
    [setup_device_capture] on the [Connected] devices and on no other; and
    when none succeeds it fails with
    [Capture { has_captured: false, error: "No capture device available" }]. *)
Theorem C3_pcap_new_some_connected_device (env : pcap_env) :
  ((exists b, fst (PcapBackend_new env) = Ok b) <->
   exists devices, pc_device_list env = Ok devices /\
     exists d c, In d devices /\ connection_status d = Connected /\
       setup_device_capture env d filter_expression = Ok c)
  /\ (forall d, In d (snd (PcapBackend_new env)) -> connection_status d = Connected)
  /\ (forall devices, pc_device_list env = Ok devices ->
        snd (PcapBackend_new env) = filter should_capture_on_device devices
        /\ (forall b, fst (PcapBackend_new env) = Ok b ->
              packet_loops b = flat_map (kept_capture env filter_expression) devices)
        /\ ((forall d, In d devices -> connection_status d = Connected ->
               exists e, setup_device_capture env d filter_expression = Err e) ->
             fst (PcapBackend_new env)
             = Err (Capture false "No capture device available"))).
Proof.
  unfold PcapBackend_new.
  destruct (pc_device_list env) as [devices|m] eqn:Hl.
  - rewrite try_devices_eq.
    assert (Hcases : forall P : Prop,
      (flat_map (kept_capture env filter_expression) devices = [] -> P) ->
      ((exists d c, In d devices /\ connection_status d = Connected /\
          setup_device_capture env d filter_expression = Ok c) -> P) -> P).
    { intros P H0 H1.
      destruct (flat_map (kept_capture env filter_expression) devices) as [|c cs] eqn:Hf.
      - now apply H0.
      - apply H1.
        assert (Hc : In c (flat_map (kept_capture env filter_expression) devices))
          by (rewrite Hf; left; reflexivity).
        apply in_flat_map in Hc as (d & Hin & Hk).
        unfold kept_capture in Hk.
        destruct (should_capture_on_device d) eqn:Hs; [|destruct Hk].
        destruct (setup_device_capture env d filter_expression) as [c'|] eqn:Hd; [|destruct Hk].
        exists d, c'; repeat split; auto; now apply should_capture_on_device_iff. }
    split; [|split].
    + split.
      * intros [b Hb]; exists devices; split; [reflexivity|].
        apply Hcases; auto.
        intros Hnil; rewrite Hnil in Hb; discriminate.
      * intros (ds & Hds & d & c & Hin & Hc & Hd).
        injection Hds as <-.
        destruct (flat_map (kept_capture env filter_expression) devices) eqn:Hf.
        -- apply flat_map_kept_nil with (d := d) in Hf as [e He]; auto; congruence.
        -- eexists; reflexivity.
    + intros d; destruct (flat_map _ devices); simpl;
        intros Hin; apply filter_In in Hin as [_ Hs]; now apply should_capture_on_device_iff.
    + intros ds Hds; injection Hds as <-.
      split; [destruct (flat_map _ devices); reflexivity|split].
      * intros b; destruct (flat_map _ devices) eqn:Hf; intros Hb; inversion Hb; reflexivity.
      * intros H; apply flat_map_kept_nil in H; rewrite H; reflexivity.
  - split; [|split].
    + split; [intros [b Hb]; discriminate|intros (ds & Hds & _); discriminate].
    + intros d [].
    + intros ds Hds; discriminate.
Qed.

Lemma C3_pcap_new_some_connected_device_witness :
  exists b, fst (PcapBackend_new Fixtures.two_device_pcap) = Ok b.
Proof.
  apply (proj2 (proj1 (C3_pcap_new_some_connected_device Fixtures.two_device_pcap))).
  exists [Fixtures.vpn_device; Fixtures.nic_device]; split; [reflexivity|].
  exists Fixtures.nic_device,
    (get_device_identifier Fixtures.nic_device,
     {| active_device := Fixtures.nic_device; active_filter := filter_expression |}).
  split; [right; left; reflexivity|split; reflexivity].
Defined.

Lemma packet_loop_go_spec (hc : bool) (steps : list (read_result * bool)) :
  let '(sent, ex) := packet_loop_go hc steps in
  (ex = ExitChannelClosed ->
     exists pkts d rest, steps = delivered pkts ++ (RPacket d, false) :: rest
                         /\ sent = map Ok (pkts ++ [d]))
  /\ (ex = ExitReadError ->
       exists pkts err b rest, steps = delivered pkts ++ (RError err, b) :: rest
         /\ sent = map Ok pkts ++ [Err (Capture (hc || Nat.ltb 0 (List.length pkts)) err)])
  /\ (ex <> Blocked -> forall more, packet_loop_go hc (steps ++ more) = (sent, ex)).
Proof.
  revert hc; induction steps as [|[r ok] steps IH]; intros hc; simpl.
  - repeat split; intros H; try discriminate; contradiction.
  - destruct r as [data|err].
    + destruct ok; simpl.
      * specialize (IH true).
        destruct (packet_loop_go true steps) as [sent ex] eqn:Hs.
        destruct IH as (Hcc & Hre & Hterm).
        split; [|split].
        -- intros Hex; destruct (Hcc Hex) as (pkts & d & rest & -> & ->).
           exists (data :: pkts), d, rest; split; reflexivity.
        -- intros Hex; destruct (Hre Hex) as (pkts & e & b & rest & -> & ->).
           exists (data :: pkts), e, b, rest; split; [reflexivity|].
           cbn [map app List.length]; replace (0 <? S (List.length pkts))%nat with true by reflexivity.
           rewrite orb_true_r; reflexivity.
        -- intros Hex more; rewrite (Hterm Hex more); reflexivity.
      * split; [|split].
        -- intros _; exists [], data, steps; split; reflexivity.
        -- discriminate.
        -- reflexivity.
    + split; [|split].
      * discriminate.
      * intros _; exists [], err, ok, steps; split; [reflexivity|].
        simpl; rewrite orb_false_r; reflexivity.
      * reflexivity.
Qed.

Lemma packet_loop_go_read_error (hc : bool) (pkts : list (list Byte.byte)) (err : string)
    (b : bool) (rest : list (read_result * bool)) :
  packet_loop_go hc (delivered pkts ++ (RError err, b) :: rest)
  = (map Ok pkts ++ [Err (Capture (hc || Nat.ltb 0 (List.length pkts)) err)], ExitReadError).
Proof.
  revert hc; induction pkts as [|p pkts IH]; intros hc; simpl.
  - rewrite orb_false_r; reflexivity.
  - rewrite IH; rewrite orb_true_r; reflexivity.
Qed.

Lemma packet_loop_go_send_failure (hc : bool) (pkts : list (list Byte.byte)) (d : list Byte.byte)
    (rest : list (read_result * bool)) :
  packet_loop_go hc (delivered pkts ++ (RPacket d, false) :: rest)
  = (map Ok (pkts ++ [d]), ExitChannelClosed).
Proof.
  revert hc; induction pkts as [|p pkts IH]; intros hc; simpl; [reflexivity|].
  rewrite IH; reflexivity.
Qed.

Lemma packet_loop_go_delivered (hc : bool) (pkts : list (list Byte.byte)) :
  packet_loop_go hc (delivered pkts) = (map Ok pkts, Blocked).
Proof.
  revert hc; induction pkts as [|p pkts IH]; intros hc; simpl; [reflexivity|].
  rewrite IH; reflexivity.
Qed.

(** C4: a capture thread forwards each packet it reads while the sends
    succeed.  When the send of a packet fails (receiver dropped), the
    thread stops at once: it reads nothing more, and everything it ever
    passed to [packet_tx.send] is a packet, never an error.  When a read
    fails, it sends exactly one error, last,
    [CaptureError::Capture { has_captured, .. }] with [has_captured] true
    exactly when it read at least one packet before, and stops.  Read
    backwards, a thread that ended in either way did so at such a step. *)
Theorem C4_packet_loop_exit :
  (forall pkts d rest,
     packet_loop (delivered pkts ++ (RPacket d, false) :: rest)
     = (map Ok (pkts ++ [d]), ExitChannelClosed))
  /\ (forall pkts err b rest,
        packet_loop (delivered pkts ++ (RError err, b) :: rest)
        = (map Ok pkts ++ [Err (Capture (Nat.ltb 0 (List.length pkts)) err)], ExitReadError))
  /\ (forall pkts, packet_loop (delivered pkts) = (map Ok pkts, Blocked))
  /\ (forall steps,
        let '(sent, ex) := packet_loop steps in
        (ex = ExitChannelClosed ->
           Forall (fun r => exists d, r = Ok d) sent
           /\ exists pkts d rest, steps = delivered pkts ++ (RPacket d, false) :: rest)
        /\ (ex = ExitReadError ->
              exists pkts err b rest, steps = delivered pkts ++ (RError err, b) :: rest
                /\ sent = map Ok pkts ++ [Err (Capture (Nat.ltb 0 (List.length pkts)) err)])
        /\ (ex <> Blocked -> forall more, packet_loop (steps ++ more) = (sent, ex))).
Proof.
  split; [|split; [|split]].
  - intros pkts d rest; apply packet_loop_go_send_failure.
  - intros pkts err b rest; unfold packet_loop; rewrite packet_loop_go_read_error; reflexivity.
  - intros pkts; apply packet_loop_go_delivered.
  - intros steps; unfold packet_loop.
    pose proof (packet_loop_go_spec false steps) as H.
    destruct (packet_loop_go false steps) as [sent ex].
    destruct H as (Hcc & Hre & Hterm).
    split; [|split; [|exact Hterm]].
    + intros Hex; destruct (Hcc Hex) as (pkts & d & rest & Hst & ->).
      split; [|eauto].
      apply Forall_forall; intros r Hr; apply in_map_iff in Hr as (x & <- & _); eauto.
    + intros Hex; destruct (Hre Hex) as (pkts & e & b & rest & Hst & ->); eauto.
Qed.

Lemma C4_packet_loop_exit_witness :
  packet_loop [(RPacket [Byte.x01], true); (RError "device removed", true); (RPacket [Byte.x02], true)]
  = ([Ok [Byte.x01]; Err (Capture true "device removed")], ExitReadError)
  /\ packet_loop [(RPacket [Byte.x01], true); (RPacket [Byte.x02], false); (RError "device removed", true)]
     = ([Ok [Byte.x01]; Ok [Byte.x02]], ExitChannelClosed).
Proof.
  split.
  - exact (proj1 (proj2 C4_packet_loop_exit) [[Byte.x01]] "device removed" true
             [(RPacket [Byte.x02], true)]).
  - exact (proj1 C4_packet_loop_exit [[Byte.x01]] [Byte.x02] [(RError "device removed", true)]).
Defined.

End CaptureProofs.

(** ** Further properties of the capture layer *)

Module CaptureExtra.
Import Capture.

(** What a reader of the log can tell from a capture error's message:
    its variant and, for [Capture], the [has_captured] flag. *)
Definition error_kind (e : CaptureError) : nat * bool :=
  match e with
  | Filter _ => (0, false)
  | Capture has_captured _ => (1, has_captured)
  | CaptureClosed => (2, false)
  | ChannelClosed => (3, false)
  end.

Definition kind_of_message (m : string) : option (nat * bool) :=
  if String.prefix "Filter error: " m then Some (0, false)
  else if String.prefix "Capture error (has_captured = true): " m then Some (1, true)
  else if String.prefix "Capture error (has_captured = false): " m then Some (1, false)
  else if String.eqb m "Capture closed" then Some (2, false)
  else if String.eqb m "Channel closed" then Some (3, false)
  else None.

(** Whatever message the wrapped [anyhow::Error] carries, the text printed
    for a [CaptureError] shows which variant it is and, for [Capture],
    whether packets had been captured before. *)
Theorem display_shows_kind (e : CaptureError) :
  kind_of_message (display e) = Some (error_kind e).
Proof.
  destruct e as [a|[] a| |]; simpl; try reflexivity; destruct a; reflexivity.
Qed.

(** [PcapBackend::next_packet], called repeatedly: it returns what the
    capture threads sent, in the order they sent it; once the queue is
    empty it returns [CaptureClosed] on every call if no sender is left,
    and otherwise waits. *)
Theorem pcap_next_packet_drain (items : list (result (list Byte.byte) CaptureError)) (n k : nat) :
  pcap_poll (List.length items + k) {| queued := items; senders := n |}
  = items ++ (if Nat.eqb n 0 then repeat (Err CaptureClosed) k else []).
Proof.
  induction items as [|item items IH]; simpl.
  - destruct k as [|k]; [destruct (Nat.eqb n 0); reflexivity|].
    destruct n as [|n]; simpl; [|reflexivity].
    f_equal; induction k as [|k IHk]; simpl; [reflexivity|now f_equal].
  - unfold pcap_next_packet at 1; simpl.
    destruct item; simpl; f_equal; exact IH.
Qed.


(** End to end, with a single capture device (one [packet_loop] thread):
    when its read fails after [pkts] were captured and forwarded, the
    thread ends, dropping the last sender, and the consumer's successive
    [next_packet] calls return the packets in order, then the
    [Capture] error (with [has_captured] telling whether any packet came
    first), then [CaptureClosed] on every further call; it never waits. *)
Theorem pcap_single_device_read_error (pkts : list (list Byte.byte)) (err : string) (b : bool)
    (rest : list (read_result * bool)) (k : nat) :
  pcap_poll (S (List.length pkts) + k)
    {| queued := fst (packet_loop (delivered pkts ++ (RError err, b) :: rest)); senders := 0 |}
  = map Ok pkts ++ Err (Capture (Nat.ltb 0 (List.length pkts)) err) :: repeat (Err CaptureClosed) k.
Proof.
  unfold packet_loop; rewrite CaptureProofs.packet_loop_go_read_error; simpl fst.
  replace (S (List.length pkts) + k)
    with (List.length (map Ok pkts ++ [Err (Capture (false || Nat.ltb 0 (List.length pkts)) err)]) + k)
    by (rewrite length_app, length_map; simpl; lia).
  rewrite pcap_next_packet_drain; simpl; rewrite <- app_assoc; reflexivity.
Qed.

Lemma packet_loop_go_items (hc : bool) (steps : list (read_result * bool)) :
  Forall thread_item (fst (packet_loop_go hc steps)).
Proof.
  revert hc; induction steps as [|[[d|e] ok] steps IH]; intros hc; simpl; auto.
  - destruct ok; simpl.
    + specialize (IH true); destruct (packet_loop_go true steps); simpl in *.
      constructor; [exact I|exact IH].
    + repeat constructor.
  - repeat constructor.
Qed.

(** Whatever the capture threads ([packet_loop], one per device) have
    sent, [PcapBackend::next_packet] returns only packets, [Capture]
    errors and [CaptureClosed] (never [Filter] or [ChannelClosed]), and
    [CaptureClosed] only when no sender is left. *)
Theorem pcap_next_packet_results (threads : list (list (read_result * bool)))
    (q : PacketQueue) (n : nat) :
  incl (queued q) (List.concat (map (fun steps => fst (packet_loop steps)) threads)) ->
  Forall (fun r => thread_item r \/ (r = Err CaptureClosed /\ senders q = 0)) (pcap_poll n q).
Proof.
  intros Hq.
  assert (Hf : Forall thread_item (queued q)).
  { apply Forall_forall; intros r Hr; apply Hq in Hr.
    apply in_concat in Hr as (l & Hl & Hr); apply in_map_iff in Hl as (st & <- & _).
    exact (proj1 (Forall_forall _ _) (packet_loop_go_items false st) r Hr). }
  destruct q as [items m]; simpl in *; clear Hq.
  revert items Hf; induction n as [|n IH]; intros items Hf; simpl; [constructor|].
  unfold pcap_next_packet; simpl.
  destruct items as [|item items].
  - destruct (Nat.eqb m 0) eqn:Hm; [|constructor].
    apply Nat.eqb_eq in Hm; subst m.
    constructor; [right; auto|].
    specialize (IH [] (Forall_nil _)); exact IH.
  - inversion Hf as [|? ? Hi Hr]; subst.
    destruct item; constructor; auto.
Qed.

Lemma pcap_next_packet_results_witness :
  Forall (fun r => thread_item r \/ (r = Err CaptureClosed /\ senders
            {| queued := [Ok [Byte.x01]; Err (Capture true "device removed")]; senders := 0 |} = 0))
    (pcap_poll 3 {| queued := [Ok [Byte.x01]; Err (Capture true "device removed")]; senders := 0 |}).
Proof.
  apply (pcap_next_packet_results [[(RPacket [Byte.x01], true); (RError "device removed", true)]]).
  vm_compute; intros r H; exact H.
Defined.

(** [PktmonBackend::next_packet] and [PacketCapture::next_packet], called
    repeatedly on the fused packet stream: the payloads of the captured
    packets in order, then, once the stream has terminated,
    [CaptureClosed] on every call; while it has not, the call waits. *)
Theorem pktmon_next_packet_drain (pkts : list Packet) (t : bool) (k : nat) :
  pktmon_poll (List.length pkts + k) {| pending := pkts; terminated := t |}
  = map (fun p => Ok (payload p)) pkts ++ (if t then repeat (Err CaptureClosed) k else []).
Proof.
  induction pkts as [|p pkts IH]; simpl.
  - destruct k as [|k]; [destruct t; reflexivity|].
    destruct t; simpl; [|reflexivity].
    f_equal; induction k as [|k IHk]; simpl; [reflexivity|now f_equal].
  - f_equal; exact IH.
Qed.

(** The capture threads [PcapBackend::new] spawns: one per device that is
    [Connected] and whose setup succeeded, in the order [Device::list]
    returned them; each is labelled with its own device's identifier and
    captures with the UDP port-range filter. *)
Theorem pcap_new_spawned_loops (env : pcap_env) (devices : list Device) (b : PcapBackend) :
  pc_device_list env = Ok devices ->
  fst (PcapBackend_new env) = Ok b ->
  map (fun c => active_device (snd c)) (packet_loops b)
  = filter (fun d => should_capture_on_device d
                     && match setup_device_capture env d filter_expression with
                        | Ok _ => true | Err _ => false end) devices
  /\ Forall (fun c => fst c = get_device_identifier (active_device (snd c))
                      /\ active_filter (snd c) = filter_expression
                      /\ connection_status (active_device (snd c)) = Connected)
            (packet_loops b).
Proof.
  intros Hl Hb; unfold PcapBackend_new in Hb; rewrite Hl, CaptureProofs.try_devices_eq in Hb.
  assert (Hloops : packet_loops b = flat_map (kept_capture env filter_expression) devices)
    by (destruct (flat_map _ devices); inversion Hb; reflexivity).
  rewrite Hloops; clear Hb Hloops Hl.
  induction devices as [|d ds [IH1 IH2]]; simpl; [split; [reflexivity|constructor]|].
  remember (kept_capture env filter_expression d) as kd eqn:Hk.
  unfold kept_capture in Hk; simpl.
  destruct (should_capture_on_device d) eqn:Hs; simpl; subst kd; [|exact (conj IH1 IH2)].
  unfold setup_device_capture.
  destruct (pc_from_device env d), (pc_open env d), (pc_filter env d filter_expression);
    simpl; try (split; assumption).
  split; [f_equal; exact IH1|].
  constructor; [|exact IH2].
  simpl; split; [reflexivity|split; [reflexivity|]].
  now apply CaptureProofs.should_capture_on_device_iff.
Qed.

Lemma pcap_new_spawned_loops_witness :
  exists b, fst (PcapBackend_new Fixtures.two_device_pcap) = Ok b
    /\ map (fun c => active_device (snd c)) (packet_loops b) = [Fixtures.nic_device].
Proof.
  eexists; split; [reflexivity|].
  refine (eq_trans (proj1 (pcap_new_spawned_loops Fixtures.two_device_pcap
                             [Fixtures.vpn_device; Fixtures.nic_device] _ eq_refl eq_refl)) _).
  reflexivity.
Defined.

End CaptureExtra.

(** ** Further properties of the wish monitor *)

Module WishExtra.
Import Wish Fixtures WishProofs.

(** *** Invariants of the monitor's runs

    A relation [P s t s'] between a state, a trace and a later state that
    holds of the empty step, composes along a run and survives a logged
    error is kept by the whole monitor as soon as it is kept by its two
    handlers. *)
Section Runs.
Variable P : Wish -> list action -> Wish -> Prop.
Hypothesis P_refl : forall s, P s [] s.
Hypothesis P_trans : forall s s1 s2 t1 t2, P s t1 s1 -> P s1 t2 s2 -> P s (t1 ++ t2) s2.
Hypothesis P_log : forall s t s' e, P s t s' -> P s (t ++ [Log e]) s'.

Lemma keeps_bind {A B} (m : M A) (k : A -> M B) :
  keeps P m -> (forall a, keeps P (k a)) -> keeps P (bind m k).
Proof.
  intros Hm Hk env s; unfold bind.
  specialize (Hm env s); destruct (m env s) as [[[a|e] s1] t1]; [|exact Hm].
  specialize (Hk a env s1); destruct (k a env s1) as [[r s2] t2].
  eapply P_trans; eauto.
Qed.

Lemma keeps_ret {A} (a : A) : keeps P (ret a).
Proof. intros env s; apply P_refl. Qed.

Lemma keeps_try_log (m : M unit) : keeps P m -> keeps P (try_log m).
Proof.
  intros Hm env s; unfold try_log.
  specialize (Hm env s); destruct (m env s) as [[[[]|e] s1] t1]; [exact Hm|].
  apply P_log; exact Hm.
Qed.

Hypothesis P_update : keeps P handle_web_cache_dir_update.
Hypothesis P_log_update : keeps P handle_log_update.

Lemma keeps_handle_events (olp : path) (events : list DebouncedEvent) :
  keeps P (handle_events olp events).
Proof.
  induction events as [|ev evs IH]; simpl; [apply keeps_ret|].
  apply keeps_bind; [|intros; exact IH].
  unfold handle_event; destruct (path_eqb (event_path ev) olp).
  - apply keeps_try_log, P_log_update.
  - apply keeps_bind; [intros env s; apply P_refl|].
    intros s; destruct (web_cache_path s) as [w|]; [|apply keeps_ret].
    destruct (path_eqb (event_path ev) w); [|apply keeps_ret].
    apply keeps_try_log, P_update.
Qed.

Lemma keeps_event_loop (olp : path) (chan : list (wish_env * batch)) (s : Wish) :
  let '(s', t) := event_loop olp chan s in P s t s'.
Proof.
  revert s; induction chan as [|[env [events|errs]] chan IH]; intros s; simpl;
    try apply P_refl.
  unfold run_unit.
  pose proof (keeps_handle_events olp events env s) as H1.
  destruct (handle_events olp events env s) as [[r s1] t1].
  specialize (IH s1); destruct (event_loop olp chan s1) as [s2 t2].
  eapply P_trans; eauto.
Qed.

(** The run of [monitor] after its initial [watch] of the log. *)
Lemma keeps_monitor (env0 : wish_env) (chan : list (wish_env * batch)) (s : Wish) (olp : path) :
  output_log_path env0 = Ok olp ->
  let '(r, s', t) := monitor env0 chan s in
  (r = Ok tt /\ env_watch env0 olp = true /\ exists t', t = Watch olp :: t' /\ P s t' s')
  \/ (r <> Ok tt /\ env_watch env0 olp = false /\ s' = s /\ t = []).
Proof.
  intros Ho; unfold monitor; rewrite Ho.
  destruct (env_watch env0 olp) eqn:Hw; simpl.
  - unfold run_unit.
    pose proof (keeps_try_log _ P_log_update env0 s) as H1.
    destruct (try_log handle_log_update env0 s) as [[r1 s1] t1].
    pose proof (keeps_event_loop olp chan s1) as H2.
    destruct (event_loop olp chan s1) as [s2 t2].
    left; split; [reflexivity|split; [reflexivity|]].
    eexists; split; [reflexivity|eapply P_trans; eauto].
  - right; split; [discriminate|split; [reflexivity|split; reflexivity]].
Qed.

End Runs.

(** *** Watch bookkeeping *)

Lemma net_watches_app (t1 t2 : list action) (p : path) :
  net_watches (t1 ++ t2) p = (net_watches t1 p + net_watches t2 p)%Z.
Proof. induction t1 as [|a t1 IH]; simpl; [reflexivity|]; rewrite IH; lia. Qed.

Lemma watch_ok_refl (s : Wish) : watch_ok s [] s.
Proof. intros p; simpl; lia. Qed.

Lemma watch_ok_trans (s s1 s2 : Wish) (t1 t2 : list action) :
  watch_ok s t1 s1 -> watch_ok s1 t2 s2 -> watch_ok s (t1 ++ t2) s2.
Proof. intros H1 H2 p; rewrite net_watches_app, H1, H2; lia. Qed.

Lemma watch_ok_log (s : Wish) (t : list action) (s' : Wish) (e : werr) :
  watch_ok s t s' -> watch_ok s (t ++ [Log e]) s'.
Proof. intros H p; rewrite net_watches_app, H; simpl; lia. Qed.

Lemma watch_ok_update : keeps watch_ok handle_web_cache_dir_update.
Proof.
  intros env s.
  destruct (web_cache_path s) as [w|] eqn:Hw.
  - pose proof (handle_web_cache_dir_update_shape env s w Hw) as H.
    destruct (handle_web_cache_dir_update env s) as [[r s'] t] eqn:Hh.
    destruct H as [Hw' _].
    (* the trace holds no [Watch] or [Unwatch] *)
    assert (Ht : forall p, net_watches t p = 0%Z).
    { revert Hh; unfold handle_web_cache_dir_update, validate_url, bind, get, ask, put, emit,
        ret, throw; simpl; rewrite Hw; simpl.
      destruct (env_read_file env w) as [c|]; [|intros Hh; injection Hh as <- <- <-; reflexivity].
      destruct (last_opt (url_find_all c)) as [u|]; [|intros Hh; injection Hh as <- <- <-; reflexivity].
      destruct (String.eqb u (prev_url s)); [intros Hh; injection Hh as <- <- <-; reflexivity|].
      destruct (env_http env u) as [rc|]; [|intros Hh; injection Hh as <- <- <-; reflexivity].
      destruct (Z.eqb rc 0); intros Hh; injection Hh as <- <- <-; reflexivity. }
    intros p; rewrite Ht; unfold cache_watched; rewrite Hw, Hw'; lia.
  - unfold handle_web_cache_dir_update, bind, get, ret; simpl.
    rewrite Hw; apply watch_ok_refl.
Qed.

Lemma watch_ok_log_update : keeps watch_ok handle_log_update.
Proof.
  intros env s; rewrite handle_log_update_eq.
  destruct (fst (fst (get_web_cache_path env s))) as [w|e]; [|apply watch_ok_refl].
  pose proof (keeps_try_log watch_ok watch_ok_log _ watch_ok_update env
                (set_web_cache_path s (Some w))) as H.
  destruct (try_log handle_web_cache_dir_update env _) as [[r s2] t].
  intros p; specialize (H p).
  rewrite net_watches_app; simpl; rewrite H.
  unfold cache_watched in *; simpl in *.
  destruct (web_cache_path s) as [old|]; simpl; [destruct (path_eqb old p)|];
    destruct (path_eqb w p); lia.
Qed.

(** The monitor leaks no file watch: when it has run (its initial [watch]
    of the log succeeded), the [watch] calls minus the [unwatch] calls it
    made leave exactly the log file and the cache file its state currently
    records, once each; every web cache file it watched before was
    unwatched when it was replaced. *)
Theorem monitor_watch_balance (env0 : wish_env) (chan : list (wish_env * batch)) (s : Wish) (olp : path) :
  web_cache_path s = None -> output_log_path env0 = Ok olp -> env_watch env0 olp = true ->
  let '(r, s', t) := monitor env0 chan s in
  r = Ok tt
  /\ forall p, net_watches t p
               = ((if path_eqb olp p then 1 else 0)
                  + match web_cache_path s' with
                    | Some w => if path_eqb w p then 1 else 0
                    | None => 0
                    end)%Z.
Proof.
  intros Hs Ho Hw.
  pose proof (keeps_monitor watch_ok watch_ok_refl watch_ok_trans watch_ok_log
                watch_ok_update watch_ok_log_update env0 chan s olp Ho) as H.
  destruct (monitor env0 chan s) as [[r s'] t].
  destruct H as [(Hr & _ & t' & -> & Ht')|(_ & Hw' & _)]; [|congruence].
  split; [exact Hr|].
  intros p; simpl; rewrite (Ht' p); unfold cache_watched; rewrite Hs; lia.
Qed.

Lemma monitor_watch_balance_witness :
  let '(r, s', t) := monitor env_v1 [(env_v2, BatchOk [{| event_path := user_log_path |}])] fresh_wish in
  r = Ok tt
  /\ forall p, net_watches t p
               = ((if path_eqb user_log_path p then 1 else 0)
                  + match web_cache_path s' with
                    | Some w => if path_eqb w p then 1 else 0
                    | None => 0
                    end)%Z.
Proof.
  exact (monitor_watch_balance env_v1 [(env_v2, BatchOk [{| event_path := user_log_path |}])]
           fresh_wish user_log_path eq_refl eq_refl eq_refl).
Defined.

(** *** Publication only after validation *)

Lemma pubs_validated_cons (a : action) (t : list action) :
  pubs_validated (a :: t)
  = match a with
    | Publish _ => false
    | Validate u => match t with
                    | Publish u' :: t' => String.eqb u u' && pubs_validated t'
                    | _ => pubs_validated t
                    end
    | _ => pubs_validated t
    end.
Proof. destruct a; [..|reflexivity|reflexivity|]; try reflexivity; destruct t as [|[] t]; reflexivity. Qed.

Lemma pubs_validated_app (t1 t2 : list action) :
  pubs_validated t1 = true -> pubs_validated t2 = true -> pubs_validated (t1 ++ t2) = true.
Proof.
  intros H1 H2.
  remember (List.length t1) as n eqn:Hn; assert (Hle : (List.length t1 <= n)%nat) by lia; clear Hn.
  revert t1 Hle H1; induction n as [|n IH]; intros t1 Hle H1.
  - destruct t1; [exact H2|simpl in Hle; lia].
  - destruct t1 as [|a t1]; [exact H2|].
    rewrite pubs_validated_cons in H1; rewrite <- app_comm_cons, pubs_validated_cons.
    simpl in Hle.
    destruct a as [p|p|p|u|u|e]; try discriminate; try (apply IH; [lia|exact H1]).
    destruct t1 as [|[q|q|q|v|v|e] t1]; cbn [app] in *;
      try (rewrite app_comm_cons; apply IH; [simpl in *; lia|exact H1]).
    + destruct t2 as [|[] t2]; cbn in H2 |- *; try discriminate; exact H2.
    + apply andb_true_iff in H1 as [Hu H1]; rewrite Hu; simpl.
      apply IH; [simpl in *; lia|exact H1].
Qed.

Lemma pubs_ok_update : keeps (fun _ t _ => pubs_validated t = true) handle_web_cache_dir_update.
Proof.
  intros env s.
  destruct (web_cache_path s) as [p|] eqn:Hw.
  - destruct (env_read_file env p) as [c|] eqn:Hr.
    + destruct (last_opt (url_find_all c)) as [u|] eqn:Hu.
      * rewrite (handle_web_cache_dir_update_eval env s p c u Hw Hr Hu).
        destruct (String.eqb u (prev_url s)); [reflexivity|].
        destruct (env_http env u) as [rc|]; [|reflexivity].
        destruct (Z.eqb rc 0); simpl; [rewrite String.eqb_refl|]; reflexivity.
      * unfold handle_web_cache_dir_update, bind, get, ask, emit, throw; simpl.
        rewrite Hw; simpl; rewrite Hr, Hu; reflexivity.
    + unfold handle_web_cache_dir_update, bind, get, ask, emit, throw; simpl.
      rewrite Hw; simpl; rewrite Hr; reflexivity.
  - unfold handle_web_cache_dir_update, bind, get, ret; simpl.
    rewrite Hw; reflexivity.
Qed.

Lemma pubs_ok_log (s : Wish) (t : list action) (s' : Wish) (e : werr) :
  pubs_validated t = true -> pubs_validated (t ++ [Log e]) = true.
Proof. intros H; apply pubs_validated_app; [exact H|reflexivity]. Qed.

Lemma pubs_ok_log_update : keeps (fun _ t _ => pubs_validated t = true) handle_log_update.
Proof.
  intros env s; rewrite handle_log_update_eq.
  destruct (fst (fst (get_web_cache_path env s))) as [w|e]; [|reflexivity].
  pose proof (keeps_try_log (fun _ t _ => pubs_validated t = true)
                (fun s t s' e => pubs_ok_log s t s' e) _ pubs_ok_update env
                (set_web_cache_path s (Some w))) as H.
  destruct (try_log handle_web_cache_dir_update env _) as [[r s2] t].
  destruct (web_cache_path s); exact H.
Qed.

(** Every URL published in [t] is one for which the validation request,
    made in the world [env], answered [retcode] 0. *)
Definition validated_in (env : wish_env) (t : list action) : Prop :=
  Forall (fun u => env_http env u = Some 0%Z) (published t).

Lemma validated_in_app (env : wish_env) (t1 t2 : list action) :
  validated_in env t1 -> validated_in env t2 -> validated_in env (t1 ++ t2).
Proof. unfold validated_in; rewrite published_app; intros H1 H2; apply Forall_app; split; assumption. Qed.

Lemma validated_in_try_log (m : M unit) (env : wish_env) :
  (forall s, let '(_, _, t) := m env s in validated_in env t) ->
  forall s, let '(_, _, t) := try_log m env s in validated_in env t.
Proof.
  intros Hm s; specialize (Hm s); unfold try_log.
  destruct (m env s) as [[[[]|e] s1] t1]; [exact Hm|].
  apply validated_in_app; [exact Hm|constructor].
Qed.

Lemma validated_in_update (env : wish_env) (s : Wish) :
  let '(_, _, t) := handle_web_cache_dir_update env s in validated_in env t.
Proof.
  unfold validated_in.
  destruct (web_cache_path s) as [p|] eqn:Hw.
  - destruct (env_read_file env p) as [c|] eqn:Hr.
    + destruct (last_opt (url_find_all c)) as [u|] eqn:Hu.
      * rewrite (handle_web_cache_dir_update_eval env s p c u Hw Hr Hu).
        destruct (String.eqb u (prev_url s)); [constructor|].
        destruct (env_http env u) as [rc|] eqn:Hh; [|constructor].
        destruct (Z.eqb rc 0) eqn:Hz; simpl; [|constructor].
        apply Z.eqb_eq in Hz; subst rc; constructor; [exact Hh|constructor].
      * unfold handle_web_cache_dir_update, bind, get, ask, emit, throw; simpl.
        rewrite Hw; simpl; rewrite Hr, Hu; constructor.
    + unfold handle_web_cache_dir_update, bind, get, ask, emit, throw; simpl.
      rewrite Hw; simpl; rewrite Hr; constructor.
  - unfold handle_web_cache_dir_update, bind, get, ret; simpl.
    rewrite Hw; constructor.
Qed.

Lemma validated_in_log_update (env : wish_env) (s : Wish) :
  let '(_, _, t) := handle_log_update env s in validated_in env t.
Proof.
  rewrite handle_log_update_eq.
  destruct (fst (fst (get_web_cache_path env s))) as [w|e]; [|constructor].
  pose proof (validated_in_try_log _ env (validated_in_update env) (set_web_cache_path s (Some w))) as H.
  destruct (try_log handle_web_cache_dir_update env _) as [[r s2] t].
  apply validated_in_app; [destruct (web_cache_path s); constructor|].
  exact H.
Qed.

Lemma validated_in_handle_events (olp : path) (events : list DebouncedEvent) (env : wish_env)
    (s : Wish) :
  let '(_, _, t) := handle_events olp events env s in validated_in env t.
Proof.
  revert s; induction events as [|ev evs IH]; intros s; simpl; [constructor|].
  unfold bind at 1.
  assert (Hev : let '(_, _, t) := handle_event olp ev env s in validated_in env t).
  { unfold handle_event; destruct (path_eqb (event_path ev) olp).
    - exact (validated_in_try_log _ env (validated_in_log_update env) s).
    - unfold bind, get, ret; simpl.
      destruct (web_cache_path s) as [w|]; [|constructor].
      destruct (path_eqb (event_path ev) w); [|constructor].
      pose proof (validated_in_try_log _ env (validated_in_update env) s) as H.
      destruct (try_log handle_web_cache_dir_update env s) as [[r s1] t1]; exact H. }
  destruct (handle_event olp ev env s) as [[[u|e] s1] t1]; [|exact Hev].
  specialize (IH s1); destruct (handle_events olp evs env s1) as [[r s2] t2].
  apply validated_in_app; assumption.
Qed.

(** The monitor never publishes a URL it has not just validated
    successfully: in every run, each [url_tx.send(Some(url))] comes right
    after [validate_url(url)] of the same URL; and the initial log update
    (in the world [env0] of the call), as well as the handling of each
    batch of events (in the world of that batch), publishes only URLs
    whose validation request answered [retcode] 0 in that world. *)
Theorem monitor_publishes_only_validated :
  (forall (env0 : wish_env) (chan : list (wish_env * batch)) (s : Wish),
     let '(_, _, t) := monitor env0 chan s in pubs_validated t = true)
  /\ (forall (env : wish_env) (s : Wish),
        let '(_, _, t) := try_log handle_log_update env s in validated_in env t)
  /\ (forall (olp : path) (events : list DebouncedEvent) (env : wish_env) (s : Wish),
        let '(_, _, t) := handle_events olp events env s in validated_in env t).
Proof.
  split; [|split].
  - intros env0 chan s.
    destruct (output_log_path env0) as [olp|e] eqn:Ho.
    + pose proof (keeps_monitor (fun _ t _ => pubs_validated t = true)
                    (fun _ => eq_refl) (fun s s1 s2 t1 t2 => pubs_validated_app t1 t2)
                    (fun s t s' e => pubs_ok_log s t s' e)
                    pubs_ok_update pubs_ok_log_update env0 chan s olp Ho) as H.
      destruct (monitor env0 chan s) as [[r s'] t].
      destruct H as [(_ & _ & t' & -> & Ht)|(_ & _ & _ & ->)]; [exact Ht|reflexivity].
    + unfold monitor; rewrite Ho; reflexivity.
  - intros env s; exact (validated_in_try_log _ env (validated_in_log_update env) s).
  - exact validated_in_handle_events.
Qed.

(** *** What the URL regex extracts *)

Lemma substring_app_l (w x : string) (n : nat) :
  String.substring 0 (String.length w + n) (w ++ x) = (w ++ String.substring 0 n x)%string.
Proof. induction w as [|c w IH]; simpl; [reflexivity|now rewrite IH]. Qed.

Lemma prefix_app (w r : string) :
  String.prefix w r = true -> r = (w ++ sdrop (String.length w) r)%string.
Proof.
  revert r; induction w as [|c w IH]; intros r H; [reflexivity|].
  destruct r as [|d r]; [discriminate|]; simpl in H |- *.
  destruct (ascii_dec c d) as [<-|]; [|discriminate].
  f_equal; exact (IH r H).
Qed.

Lemma substring_prefix (n : nat) (s : string) :
  exists post, s = (String.substring 0 n s ++ post)%string.
Proof.
  revert s; induction n as [|n IH]; intros s; [exists s; destruct s; reflexivity|].
  destruct s as [|c s]; [exists ""; reflexivity|].
  destruct (IH s) as [post Hp]; exists post; simpl; f_equal; exact Hp.
Qed.

Lemma lit_sound (w : string) (k : string -> option nat) (L : string -> Prop) :
  sound k L -> sound (lit w k) (fun u => exists v, L v /\ u = (w ++ v)%string).
Proof.
  intros Hk r n; unfold lit.
  destruct (String.prefix w r) eqn:Hp; [|discriminate].
  destruct (k (sdrop (String.length w) r)) as [m|] eqn:Hm; [|discriminate].
  simpl; intros H; injection H as <-.
  cbv beta; rewrite (prefix_app w r Hp), substring_app_l.
  eexists; split; [exact (Hk _ _ Hm)|reflexivity].
Qed.

Lemma lazy_plus_sound (k : string -> option nat) (L : string -> Prop) :
  sound k L ->
  sound (fun r => lazy_plus r k)
        (fun u => exists a v, a <> EmptyString /\ no_newline a = true /\ L v
                              /\ u = (a ++ v)%string).
Proof.
  intros Hk r; induction r as [|c r IH]; intros n; simpl; [discriminate|].
  destruct (Ascii.eqb c newline) eqn:Hc; [discriminate|].
  destruct (k r) as [m|] eqn:Hm.
  - intros H; injection H as <-; simpl.
    exists (String c ""), (String.substring 0 m r).
    split; [discriminate|split; [simpl; rewrite Hc; reflexivity|split; [exact (Hk _ _ Hm)|reflexivity]]].
  - destruct (lazy_plus r k) as [m|] eqn:Hl; [|discriminate].
    simpl; intros H; injection H as <-; simpl.
    destruct (IH m eq_refl) as (a & v & Ha & Hna & Hv & Heq).
    exists (String c a), v; split; [discriminate|split; [simpl; rewrite Hc, Hna; reflexivity|]].
    split; [exact Hv|rewrite Heq; reflexivity].
Qed.

Lemma string_app_empty (s : string) : (s ++ "")%string = s.
Proof. induction s as [|c s IH]; simpl; [reflexivity|now rewrite IH]. Qed.

Lemma url_at_sound (s : string) (n : nat) :
  url_at s = Some n -> url_shape (String.substring 0 n s).
Proof.
  intros H.
  assert (Hs : sound (fun _ => Some 0) (fun u => u = EmptyString)).
  { intros r m Hm; injection Hm as <-; destruct r; reflexivity. }
  pose proof (lit_sound "game_biz=" (fun _ => Some 0) _ Hs) as H1.
  pose proof (lazy_plus_sound _ _ H1) as H2.
  pose proof (lit_sound "webview_gacha" _ _ H2) as H3.
  pose proof (lazy_plus_sound _ _ H3) as H4.
  pose proof (lit_sound "https" _ _ H4) as Hu.
  destruct (Hu s n H) as (v1 & (a & v2 & Ha & Hna & (v3 & (b & v4 & Hb & Hnb & (v5 & -> & ->) & ->) & ->) & ->) & ->).
  exists a, b; split; [exact Ha|split; [exact Hna|split; [exact Hb|split; [exact Hnb|]]]].
  rewrite string_app_empty; reflexivity.
Qed.

(** Every URL [url_re.captures_iter] extracts from the cache file is a
    piece of the file's text of the form
    [https<a>webview_gacha<b>game_biz=], where [a] and [b] are non-empty
    and contain no line break. *)
Theorem url_find_all_sound (strings u : string) :
  In u (url_find_all strings) ->
  url_shape u /\ exists pre post, strings = (pre ++ u ++ post)%string.
Proof.
  unfold url_find_all; generalize 0%nat as skip.
  induction strings as [|c r IH]; intros skip Hin; simpl in Hin; [contradiction|].
  destruct skip as [|k].
  - destruct (url_at (String c r)) as [n|] eqn:Hu.
    + destruct Hin as [<-|Hin].
      * split; [exact (url_at_sound _ _ Hu)|].
        destruct (substring_prefix n (String c r)) as [post Hp].
        exists "", post; exact Hp.
      * destruct (IH _ Hin) as [Hs (pre & post & ->)].
        split; [exact Hs|exists (String c pre), post; reflexivity].
    + destruct (IH _ Hin) as [Hs (pre & post & ->)].
      split; [exact Hs|exists (String c pre), post; reflexivity].
  - destruct (IH _ Hin) as [Hs (pre & post & ->)].
    split; [exact Hs|exists (String c pre), post; reflexivity].
Qed.

Lemma url_find_all_sound_witness :
  url_shape url_b /\ exists pre post, two_url_cache = (pre ++ url_b ++ post)%string.
Proof.
  apply url_find_all_sound; vm_compute; right; left; reflexivity.
Defined.

Lemma last_opt_In {A} (l : list A) (a : A) : last_opt l = Some a -> In a l.
Proof.
  induction l as [|x l IH]; simpl; [discriminate|].
  destruct l as [|y l]; [intros H; injection H as ->; left; reflexivity|].
  intros H; right; exact (IH H).
Qed.

Lemma shaped_trans (s s1 s2 : Wish) (t1 t2 : list action) :
  shaped s t1 s1 -> shaped s1 t2 s2 -> shaped s (t1 ++ t2) s2.
Proof. unfold shaped; rewrite published_app; intros H1 H2; apply Forall_app; split; assumption. Qed.

Lemma shaped_log (s : Wish) (t : list action) (s' : Wish) (e : werr) :
  shaped s t s' -> shaped s (t ++ [Log e]) s'.
Proof. intros H; apply (shaped_trans s s' s' t [Log e]); [exact H|constructor]. Qed.

Lemma shaped_update : keeps shaped handle_web_cache_dir_update.
Proof.
  intros env s.
  destruct (web_cache_path s) as [p|] eqn:Hw.
  - destruct (env_read_file env p) as [c|] eqn:Hr.
    + destruct (last_opt (url_find_all c)) as [u|] eqn:Hu.
      * rewrite (handle_web_cache_dir_update_eval env s p c u Hw Hr Hu).
        destruct (String.eqb u (prev_url s)); [constructor|].
        destruct (env_http env u) as [rc|]; [|constructor].
        destruct (Z.eqb rc 0); [|constructor].
        constructor; [|constructor].
        exact (proj1 (url_find_all_sound c u (last_opt_In _ _ Hu))).
      * unfold handle_web_cache_dir_update, bind, get, ask, emit, throw; simpl.
        rewrite Hw; simpl; rewrite Hr, Hu; constructor.
    + unfold handle_web_cache_dir_update, bind, get, ask, emit, throw; simpl.
      rewrite Hw; simpl; rewrite Hr; constructor.
  - unfold handle_web_cache_dir_update, bind, get, ret; simpl.
    rewrite Hw; constructor.
Qed.

Lemma shaped_log_update : keeps shaped handle_log_update.
Proof.
  intros env s; rewrite handle_log_update_eq.
  destruct (fst (fst (get_web_cache_path env s))) as [w|e]; [|constructor].
  pose proof (keeps_try_log shaped shaped_log _ shaped_update env
                (set_web_cache_path s (Some w))) as H.
  destruct (try_log handle_web_cache_dir_update env _) as [[r s2] t].
  unfold shaped in *; destruct (web_cache_path s); exact H.
Qed.

(** Every URL the monitor publishes on [url_tx] has the form
    [https<a>webview_gacha<b>game_biz=] with non-empty, single-line [a]
    and [b]. *)
Theorem monitor_published_url_shape (env0 : wish_env) (chan : list (wish_env * batch)) (s : Wish) :
  let '(_, _, t) := monitor env0 chan s in Forall url_shape (published t).
Proof.
  destruct (output_log_path env0) as [olp|e] eqn:Ho.
  - pose proof (keeps_monitor shaped (fun s => Forall_nil _) shaped_trans shaped_log
                  shaped_update shaped_log_update env0 chan s olp Ho) as H.
    destruct (monitor env0 chan s) as [[r s'] t].
    destruct H as [(_ & _ & t' & -> & Ht)|(_ & _ & _ & ->)]; [exact Ht|constructor].
  - unfold monitor; rewrite Ho; constructor.
Qed.

(** *** Where the watched cache file lies *)

Lemma string_app_assoc (a b c : string) : ((a ++ b) ++ c)%string = (a ++ b ++ c)%string.
Proof. induction a as [|x a IH]; simpl; [reflexivity|now rewrite IH]. Qed.

Lemma string_app_length (a b : string) :
  String.length (a ++ b) = (String.length a + String.length b)%nat.
Proof. induction a as [|x a IH]; simpl; [reflexivity|now rewrite IH]. Qed.

Lemma substring_app_exact (a b : string) :
  String.substring 0 (String.length a) (a ++ b) = a.
Proof.
  rewrite <- (Nat.add_0_r (String.length a)), substring_app_l.
  destruct b; simpl; apply string_app_empty.
Qed.

Lemma gd_scan_sound (r : string) (k : nat) (acc : option nat) (l : nat) :
  gd_scan r k acc = Some l ->
  acc = Some l
  \/ exists x tail rest, x <> EmptyString /\ no_newline x = true
       /\ (tail = "GenshinImpact_Data" \/ tail = "YuanShen_Data")
       /\ r = (x ++ tail ++ rest)%string
       /\ l = (k + String.length x + String.length tail)%nat.
Proof.
  revert k acc; induction r as [|c r IH]; intros k acc H; simpl in H; [left; exact H|].
  destruct (Ascii.eqb c newline) eqn:Hc; [left; exact H|].
  destruct (IH _ _ H) as [Hacc|(x & tail & rest & Hx & Hnx & Ht & -> & ->)].
  - destruct (String.prefix "GenshinImpact_Data" r) eqn:Hg.
    + injection Hacc as <-; right.
      exists (String c ""), "GenshinImpact_Data", (sdrop 18 r).
      split; [discriminate|split; [simpl; rewrite Hc; reflexivity|split; [left; reflexivity|]]].
      split; [simpl; f_equal; exact (prefix_app _ _ Hg)|simpl; lia].
    + destruct (String.prefix "YuanShen_Data" r) eqn:Hy.
      * injection Hacc as <-; right.
        exists (String c ""), "YuanShen_Data", (sdrop 13 r).
        split; [discriminate|split; [simpl; rewrite Hc; reflexivity|split; [right; reflexivity|]]].
        split; [simpl; f_equal; exact (prefix_app _ _ Hy)|simpl; lia].
      * left; exact Hacc.
  - right; exists (String c x), tail, rest.
    split; [discriminate|split; [simpl; rewrite Hc, Hnx; reflexivity|split; [exact Ht|]]].
    split; [reflexivity|simpl; lia].
Qed.

Lemma game_data_find_sound (s m : string) :
  game_data_find s = Some m -> gd_shape m /\ exists pre post, s = (pre ++ m ++ post)%string.
Proof.
  induction s as [|c r IH]; cbn [game_data_find]; [discriminate|].
  destruct (gd_at (String c r)) as [m'|] eqn:Hg.
  - intros H; injection H as <-.
    unfold gd_at in Hg.
    destruct r as [|col [|sep r']]; try discriminate.
    destruct (negb (Ascii.eqb c newline) && Ascii.eqb col ":" && is_sep sep) eqn:Hcond;
      [|discriminate].
    apply andb_true_iff in Hcond as [Hcond Hsep]; apply andb_true_iff in Hcond as [Hc Hcol].
    apply negb_true_iff in Hc; apply Ascii.eqb_eq in Hcol; subst col.
    destruct (gd_scan r' 0 None) as [l|] eqn:Hs; [|discriminate].
    injection Hg as <-.
    destruct (gd_scan_sound _ _ _ _ Hs) as [H0|(x & tail & rest & Hx & Hnx & Ht & -> & ->)];
      [discriminate|].
    rewrite <- string_app_assoc.
    replace (3 + (0 + String.length x + String.length tail))%nat
      with (3 + String.length (x ++ tail))%nat by (rewrite string_app_length; lia).
    simpl; rewrite <- string_app_length, substring_app_exact.
    split.
    + exists c, sep, x, tail; repeat split; auto.
    + exists "", rest; reflexivity.
  - intros H; destruct (IH H) as [Hs (pre & post & ->)].
    split; [exact Hs|exists (String c pre), post; reflexivity].
Qed.

Lemma scan_log_lines_sound (lp p : path) (ls : list io_line) :
  scan_log_lines lp ls = Ok p -> exists l m, In (Line l) ls /\ game_data_find l = Some m /\ p = [m].
Proof.
  induction ls as [|[l|] ls IH]; simpl; try discriminate.
  destruct (game_data_find l) as [m|] eqn:Hm.
  - intros H; injection H as <-; exists l, m; auto.
  - intros H; destruct (IH H) as (l' & m' & Hin & Hm' & ->); exists l', m'; auto.
Qed.

Lemma scan_entries_sound (wc p : path) (t t' : Z) (o : option path) (items : list dir_item) :
  scan_entries wc (t, o) items = Ok (t', Some p) ->
  o = Some p \/ exists e m, In (Entry e) items /\ dir_mtime e m /\ (t < m)%Z
                            /\ p = push wc [entry_name e].
Proof.
  revert t o; induction items as [|[e|] items IH]; intros t o H; simpl in H; try discriminate.
  - injection H as _ ->; left; reflexivity.
  - destruct (entry_metadata e) as [md|] eqn:Hmd; [|discriminate].
    destruct (md_is_dir md) eqn:Hd; simpl in H.
    + destruct (md_modified md) as [m|] eqn:Hm; [|discriminate].
      assert (He : dir_mtime e m) by (exists md; auto).
      destruct (Z.ltb_spec t m) as [Hlt|Hle].
      * destruct (IH _ _ H) as [Ho|(e' & m' & Hin & He' & Hlt' & ->)].
        -- injection Ho as <-; right; exists e, m; split; [left; reflexivity|auto].
        -- right; exists e', m'; split; [right; exact Hin|split; [exact He'|split; [lia|reflexivity]]].
      * destruct (IH _ _ H) as [Ho|(e' & m' & Hin & He' & Hlt' & ->)]; [left; exact Ho|].
        right; exists e', m'; split; [right; exact Hin|split; [exact He'|split; [lia|reflexivity]]].
    + destruct (IH _ _ H) as [Ho|(e' & m' & Hin & He' & Hlt' & ->)]; [left; exact Ho|].
      right; exists e', m'; split; [right; exact Hin|auto].
Qed.

Lemma get_web_cache_path_result (env : wish_env) (s : Wish) :
  fst (fst (get_web_cache_path env s))
  = match get_data_dir_pure env (self_output_log_path s) with
    | Ok d => match get_web_cache_dir env d with
              | Ok p => Ok (push p ["Cache"; "Cache_Data"; "data_2"])
              | Err e => Err e
              end
    | Err e => Err e
    end.
Proof.
  unfold get_web_cache_path, get_data_dir, bind, get, ask, lift, ret, throw; simpl.
  destruct (get_data_dir_pure env (self_output_log_path s)); simpl; [|reflexivity].
  destruct (get_web_cache_dir env a); reflexivity.
Qed.

(** The cache file [get_web_cache_path] yields, which [handle_log_update]
    then watches and reads, is always
    [<game data dir>/webCaches/<name>/Cache/Cache_Data/data_2], where the
    game data directory is a match of the session pattern on a line of
    the output log, and [<name>] is a directory listed in its [webCaches]
    folder, modified after the Unix epoch. *)
Theorem get_web_cache_path_location (env : wish_env) (s : Wish) (w : path) :
  fst (fst (get_web_cache_path env s)) = Ok w ->
  exists ls l m items e mt,
    env_read_lines env (self_output_log_path s) = Some ls /\ In (Line l) ls
    /\ game_data_find l = Some m /\ gd_shape m
    /\ env_read_dir env [m; "webCaches"] = Some items /\ In (Entry e) items
    /\ dir_mtime e mt /\ (UNIX_EPOCH < mt)%Z
    /\ w = [m; "webCaches"; entry_name e; "Cache"; "Cache_Data"; "data_2"].
Proof.
  rewrite get_web_cache_path_result; unfold get_data_dir_pure.
  destruct (env_read_lines env (self_output_log_path s)) as [ls|] eqn:Hls; [|discriminate].
  destruct (scan_log_lines (self_output_log_path s) ls) as [d|] eqn:Hd; [|discriminate].
  destruct (scan_log_lines_sound _ _ _ Hd) as (l & m & Hin & Hm & ->).
  unfold get_web_cache_dir.
  destruct (env_read_dir env (push [m] ["webCaches"])) as [items|] eqn:Hi; [|discriminate].
  destruct (scan_entries (push [m] ["webCaches"]) (UNIX_EPOCH, None) items) as [[t [p|]]|] eqn:Hs;
    try discriminate.
  intros H; injection H as <-.
  destruct (scan_entries_sound _ _ _ _ _ _ Hs) as [Hn|(e & mt & Hine & He & Hlt & ->)]; [discriminate|].
  exists ls, l, m, items, e, mt.
  repeat split; auto.
  exact (proj1 (game_data_find_sound _ _ Hm)).
Qed.

Lemma get_web_cache_path_location_witness :
  exists ls l m items e mt,
    env_read_lines env_v1 user_log_path = Some ls /\ In (Line l) ls
    /\ game_data_find l = Some m /\ gd_shape m
    /\ env_read_dir env_v1 [m; "webCaches"] = Some items /\ In (Entry e) items
    /\ dir_mtime e mt /\ (UNIX_EPOCH < mt)%Z
    /\ cache_path = [m; "webCaches"; entry_name e; "Cache"; "Cache_Data"; "data_2"].
Proof.
  exact (get_web_cache_path_location env_v1 fresh_wish cache_path eq_refl).
Defined.

(** *** Failure edges of the two scans *)

(** [get_data_dir] reads the log only up to its first session line: a line
    that cannot be read before it aborts the scan with the read error,
    even when a later line would match; and a log read to its end without
    a session line is an error naming the log. *)
Theorem get_data_dir_failures (env : wish_env) (olp : path) (pre : list string) :
  Forall (fun x => game_data_find x = None) pre ->
  (forall post, env_read_lines env olp = Some (map Line pre ++ LineError :: post) ->
     get_data_dir_pure env olp = Err LineReadError)
  /\ (env_read_lines env olp = Some (map Line pre) ->
      get_data_dir_pure env olp = Err (NoGameDataPath olp)).
Proof.
  intros Hpre; unfold get_data_dir_pure; split.
  - intros post ->; induction Hpre as [|x pre Hx Hpre IH]; simpl; [reflexivity|].
    rewrite Hx; exact IH.
  - intros ->; induction Hpre as [|x pre Hx Hpre IH]; simpl; [reflexivity|].
    rewrite Hx; exact IH.
Qed.

Lemma get_data_dir_failures_witness :
  get_data_dir_pure (mk_env (Some log_with_broken_line) None None (fun _ => None)) user_log_path
  = Err LineReadError
  /\ get_data_dir_pure (mk_env (Some [Line "[Subsystems] loading"]) None None (fun _ => None)) user_log_path
     = Err (NoGameDataPath user_log_path).
Proof.
  split.
  - apply (proj1 (get_data_dir_failures (mk_env (Some log_with_broken_line) None None (fun _ => None))
                    user_log_path ["[Subsystems] loading"] ltac:(repeat constructor))
                 one_session_log).
    reflexivity.
  - apply (proj2 (get_data_dir_failures (mk_env (Some [Line "[Subsystems] loading"]) None None (fun _ => None))
                    user_log_path ["[Subsystems] loading"] ltac:(repeat constructor))).
    reflexivity.
Defined.

(** [get_web_cache_dir] gives up on the whole [webCaches] folder at the
    first entry it cannot inspect: an unreadable entry, an entry whose
    metadata cannot be read, or a directory whose modification time
    cannot be read makes it fail, whatever directories come before or
    after; a plain file whose modification time cannot be read is
    skipped. *)
Theorem get_web_cache_dir_failures (env : wish_env) (data_dir : path) (pre : list DirEntry)
    (post : list dir_item) :
  entries_readable pre ->
  let listing x := env_read_dir env (push data_dir ["webCaches"]) = Some (map Entry pre ++ x :: post) in
  (listing EntryError -> get_web_cache_dir env data_dir = Err DirEntryError)
  /\ (forall e, entry_metadata e = None -> listing (Entry e) ->
        get_web_cache_dir env data_dir = Err MetadataError)
  /\ (forall e md, entry_metadata e = Some md -> md_is_dir md = true -> md_modified md = None ->
        listing (Entry e) -> get_web_cache_dir env data_dir = Err ModifiedError)
  /\ (forall e md acc, entry_metadata e = Some md -> md_is_dir md = false ->
        scan_entries (push data_dir ["webCaches"]) acc (map Entry pre ++ Entry e :: post)
        = scan_entries (push data_dir ["webCaches"]) acc (map Entry pre ++ post)).
Proof.
  intros Hr listing.
  destruct (scan_entries_spec (push data_dir ["webCaches"]) pre UNIX_EPOCH None Hr)
    as (t' & o' & Hs & _).
  unfold listing, get_web_cache_dir; split; [|split; [|split]].
  - intros ->; rewrite scan_entries_app, Hs; reflexivity.
  - intros e He ->; rewrite scan_entries_app, Hs; simpl; rewrite He; reflexivity.
  - intros e md He Hd Hm ->; rewrite scan_entries_app, Hs; simpl; rewrite He, Hd; simpl; rewrite Hm; reflexivity.
  - intros e md acc He Hd; rewrite !scan_entries_app.
    destruct (scan_entries _ acc (map Entry pre)); simpl; [rewrite He, Hd|]; reflexivity.
Qed.

Lemma get_web_cache_dir_failures_witness :
  get_web_cache_dir (mk_env None (Some [Entry game_2_40; EntryError]) None (fun _ => None))
    ["D:/New/GenshinImpact_Data"]
  = Err DirEntryError.
Proof.
  apply (proj1 (get_web_cache_dir_failures
                  (mk_env None (Some [Entry game_2_40; EntryError]) None (fun _ => None))
                  ["D:/New/GenshinImpact_Data"] [game_2_40] []
                  ltac:(intros e [<-|[]]; eexists; split; [reflexivity|intros _; eexists; reflexivity]))).
  reflexivity.
Defined.

(** *** Which file events the monitor acts on *)

Lemma handle_events_unrelated (olp : path) (events : list DebouncedEvent) (env : wish_env) (s : Wish) :
  forallb (unrelated olp (web_cache_path s)) events = true ->
  handle_events olp events env s = (Ok tt, s, []).
Proof.
  induction events as [|ev evs IH]; cbn [handle_events forallb]; [reflexivity|].
  intros H; apply andb_true_iff in H as [Hev Hevs].
  unfold unrelated in Hev; apply andb_true_iff in Hev as [Hl Hw].
  apply negb_true_iff in Hl.
  unfold handle_event; rewrite Hl.
  unfold bind, get, ret; simpl.
  destruct (web_cache_path s) as [w|]; [apply negb_true_iff in Hw; rewrite Hw|]; simpl;
    rewrite (IH Hevs); reflexivity.
Qed.

(** The monitor acts only on events for the log or for the cache file it
    currently watches.  In particular, once a log update has moved it to a
    new cache file, further events for the old one change nothing and do
    nothing: those still queued in the same batch, and those of any batch
    delivered later, as long as the monitor does not watch the old file
    again. *)
Theorem stale_cache_events_ignored (olp old w : path) (env : wish_env) (s : Wish)
    (stale : list DebouncedEvent) :
  web_cache_path s = Some old ->
  fst (fst (get_web_cache_path env s)) = Ok w ->
  Forall (fun ev => event_path ev = old) stale ->
  old <> olp -> old <> w ->
  (let '(r, s1, t) := handle_events olp [{| event_path := olp |}] env s in
   web_cache_path s1 = Some w
   /\ handle_events olp ({| event_path := olp |} :: stale) env s = (r, s1, t))
  /\ (forall s' env' stale' rest, web_cache_path s' <> Some old ->
        Forall (fun ev => event_path ev = old) stale' ->
        event_loop olp ((env', BatchOk stale') :: rest) s' = event_loop olp rest s').
Proof.
  intros Hs Hw Hst Hol Hnew.
  assert (Hstale : forall s' evs, web_cache_path s' <> Some old ->
            Forall (fun ev => event_path ev = old) evs ->
            forall env', handle_events olp evs env' s' = (Ok tt, s', [])).
  { intros s' evs Hs' Hevs env'; apply handle_events_unrelated.
    apply forallb_forall; intros ev Hin.
    rewrite Forall_forall in Hevs; unfold unrelated; rewrite (Hevs ev Hin).
    destruct (path_eqb old olp) eqn:E1; [apply path_eqb_eq in E1; contradiction|].
    destruct (web_cache_path s') as [w'|]; [|reflexivity].
    destruct (path_eqb old w') eqn:E2; [apply path_eqb_eq in E2; subst; contradiction|].
    reflexivity. }
  split.
  - assert (Hlog : forall t, handle_event olp {| event_path := olp |} env s = t ->
              let '(_, s1, _) := t in web_cache_path s1 = Some w).
    { intros t <-; unfold handle_event; simpl.
      replace (path_eqb olp olp) with true by (symmetry; apply path_eqb_eq; reflexivity).
      unfold try_log at 1; rewrite handle_log_update_eq, Hw; unfold try_log.
      pose proof (handle_web_cache_dir_update_shape env (set_web_cache_path s (Some w)) w eq_refl) as H.
      destruct (handle_web_cache_dir_update env (set_web_cache_path s (Some w))) as [[r2 s2] t2].
      destruct H as [H _]; simpl.
      destruct r2 as [[]|e]; simpl; exact H. }
    cbn [handle_events]; unfold bind.
    specialize (Hlog _ eq_refl).
    destruct (handle_event olp {| event_path := olp |} env s) as [[[[]|e] s1] t1].
    + assert (Hs1 : web_cache_path s1 <> Some old) by (rewrite Hlog; congruence).
      rewrite (Hstale s1 stale Hs1 Hst env); unfold ret; split; [exact Hlog|reflexivity].
    + split; [exact Hlog|reflexivity].
  - intros s' env' stale' rest Hs' Hst'.
    cbn [event_loop]; unfold run_unit.
    rewrite (Hstale s' stale' Hs' Hst' env').
    destruct (event_loop olp rest s'); reflexivity.
Qed.

Lemma stale_cache_events_ignored_witness :
  (let '(r, s1, t) := handle_events user_log_path [{| event_path := user_log_path |}] env_v2
                        (wish_at (Some cache_path) "") in
   web_cache_path s1 = Some cache_path_2_41
   /\ handle_events user_log_path
        [{| event_path := user_log_path |}; {| event_path := cache_path |}] env_v2
        (wish_at (Some cache_path) "") = (r, s1, t))
  /\ event_loop user_log_path [(env_v2, BatchOk [{| event_path := cache_path |}])]
       (wish_at (Some cache_path_2_41) "")
     = (wish_at (Some cache_path_2_41) "", []).
Proof.
  destruct (stale_cache_events_ignored user_log_path cache_path cache_path_2_41 env_v2
              (wish_at (Some cache_path) "") [{| event_path := cache_path |}]
              eq_refl eq_refl ltac:(repeat constructor) ltac:(discriminate) ltac:(discriminate))
    as [Hbatch Hlater].
  split; [exact Hbatch|].
  exact (Hlater (wish_at (Some cache_path_2_41) "") env_v2 [{| event_path := cache_path |}] []
           ltac:(discriminate) ltac:(repeat constructor)).
Defined.

End WishExtra.
